(** * apollo-opencensus: the path codec, the span registry and the span-tree builder

    A shallow embedding of [src/context.ts] and [src/index.ts].

    - [PathCodec] embeds [isArrayPath] and [buildPath].
    - [Registry] embeds [isSpanContext] and [addContextHelpers] together with
      the two closures the latter installs on a context object.
    - [Builder] embeds the [OpencensusExtension] class: its constructor,
      [requestDidStart], [willResolveField] and the closures they return.

    JavaScript objects that the code mutates (context objects, spans, the
    extension instance) live in an explicit store and are referred to by
    their address; a call is a function from stores to a result, which is a
    value or an exception, and a store.

    What the code is handed by its callers is modelled as follows.
    - The predicates [shouldTraceRequest] and [shouldTraceFieldResolver] are
      functions to [bool]; the hooks are functions to a completion (return
      or throw).  Neither writes to the store.
    - Context objects are ordinary extensible objects without properties of
      their own named [getSpanByPath] or [addSpan].
    - The tracer is the client of the tracing library: it keeps the spans it
      has started, and a span is a record of what the code can set on it. *)

From Stdlib Require Import Ascii DecimalString DecimalN.
From stdpp Require Import base option list strings gmap.

Open Scope string_scope.
Open Scope list_scope.

(** ** Path codec ([src/context.ts], lines 4-20) *)

Module PathCodec.

(** The [key] of a [ResponsePath] object.  The declared type is
    [string | number]; the unit tests also hand in objects that carry no
    [key] at all, which reads as [undefined]. Numeric keys are the list
    indices that the GraphQL executor produces. *)
Inductive Key :=
| KUndefined
| KName (s : string)
| KIndex (i : N).

(** A [ResponsePath] object: a chain linked through [prev].  [oid] stands for
    the identity of the JavaScript object; no code reads it. *)
#[warnings="-register-all"]
Inductive ResponsePath := {
  prev : option ResponsePath;
  key : Key;
  oid : nat
}.

Global Instance Key_eq_dec : EqDecision Key.
Proof. solve_decision. Defined.

(** [typeof path.key === "number"] *)
Definition isArrayPath (path : ResponsePath) : bool :=
  match key path with
  | KIndex _ => true
  | _ => false
  end.

(** The string a template literal produces for an index (list indices are
    far below the numbers that JavaScript prints with an exponent). *)
Definition number_to_string (i : N) : string :=
  NilEmpty.string_of_uint (N.to_uint i).

(** What one iteration of the loop pushes on [segments]: a string, or
    [undefined] ([None]) when the key is missing. *)
Definition segment (current : ResponsePath) : option string :=
  if isArrayPath current then
    match key current with
    | KIndex i => Some ("[" +:+ number_to_string i +:+ "]")
    | _ => None
    end
  else
    match key current with
    | KName s => Some s
    | _ => None
    end.

(** The [while (current != null)] loop, started on a non-null [current] with
    the segments pushed so far; [push] appends at the end. *)
Fixpoint buildPath_loop (current : ResponsePath) (segments : list (option string))
  : list (option string) :=
  let segments := segments ++ [segment current] in
  match prev current with
  | None => segments
  | Some p => buildPath_loop p segments
  end.

(** [Array.prototype.join]: [undefined] elements are rendered as the empty
    string, and the separator goes between every two elements. *)
Definition element_to_string (e : option string) : string := default "" e.

Fixpoint join (sep : string) (l : list (option string)) : string :=
  match l with
  | [] => ""
  | [e] => element_to_string e
  | e :: rest => element_to_string e +:+ sep +:+ join sep rest
  end.

Definition buildPath (path : option ResponsePath) : string :=
  let segments :=
    match path with
    | None => []
    | Some current => buildPath_loop current []
    end in
  join "." (reverse segments).

(** The keys on a chain, root first. *)
Fixpoint path_keys (p : ResponsePath) : list Key :=
  match prev p with
  | None => [key p]
  | Some q => path_keys q ++ [key p]
  end.

Definition chain_keys (p : option ResponsePath) : list Key :=
  from_option path_keys [] p.

(** Rendering of one key, as [segment] does it. *)
Definition key_segment (k : Key) : option string :=
  match k with
  | KUndefined => None
  | KName s => Some s
  | KIndex i => Some ("[" +:+ number_to_string i +:+ "]")
  end.

(** Keys as the GraphQL executor produces them: a response name is not
    empty, has no dot in it and does not start with a bracket (GraphQL names
    are made of letters, digits and underscores); everything else is a list
    index. *)
Fixpoint dotfree (s : string) : bool :=
  match s with
  | "" => true
  | String c s' => negb (Ascii.eqb c "."%char) && dotfree s'
  end.

Definition wf_name (s : string) : bool :=
  match s with
  | "" => false
  | String c _ => negb (Ascii.eqb c "["%char) && dotfree s
  end.

Definition wf_key (k : Key) : bool :=
  match k with
  | KUndefined => false
  | KName s => wf_name s
  | KIndex _ => true
  end.

Definition wf_path (p : ResponsePath) : bool := forallb wf_key (path_keys p).
Definition wf_chain (p : option ResponsePath) : bool := forallb wf_key (chain_keys p).

(** A segment as a well-formed key yields it. *)
Definition good_segment (e : option string) : Prop :=
  exists s, e = Some s /\ s <> "" /\ dotfree s = true.

(** [under n p]: the position of [p] is that of [n] or below it;
    [below n p]: strictly below. *)
Definition under (n p : ResponsePath) : Prop :=
  exists suffix, path_keys p = path_keys n ++ suffix.

Definition below (n p : ResponsePath) : Prop :=
  exists suffix, suffix <> [] /\ path_keys p = path_keys n ++ suffix.

(** Chains used in the examples of the documentation. *)
Definition named (parent : option ResponsePath) (s : string) : ResponsePath :=
  {| prev := parent; key := KName s; oid := 0 |}.
Definition indexed (parent : option ResponsePath) (i : N) : ResponsePath :=
  {| prev := parent; key := KIndex i; oid := 0 |}.

Definition a_three_1_four : ResponsePath :=
  named (Some (indexed (Some (named (Some (named None "a")) "three")) 1)) "four".

End PathCodec.

(** ** The JavaScript run time: exceptions, the object store, the tracer *)

Module Runtime.

(** Values the code only passes around ([source], [args], [error],
    [result], thrown values). *)
Inductive Value :=
| VUndefined
| VNull
| VOpaque (tag : nat).

(** What a call can throw: a [TypeError] that the run time raises for an
    operation of the code itself (a call of a property that is not a
    function, a property redefined), the [Error] the constructor makes, and
    whatever value a hook throws, which is passed on as it is. *)
Inductive Exn :=
| TypeError (msg : string)
| Error (msg : string)
| Thrown (v : Value).

(** How a call ends. *)
Inductive Res (A : Type) :=
| Return (a : A)
| Throw (e : Exn).
Global Arguments Return {A} a.
Global Arguments Throw {A} e.

(** How a user-supplied hook ends.  Hooks are called for their completion
    only: what they do to spans (attributes, annotations) is not part of the
    span data below. *)
Inductive Completion :=
| Normal
| Abrupt (thrown : Value).

(** Addresses of span objects and of context objects. *)
Definition SpanRef := nat.
Definition loc := nat.

Inductive SpanKind := UNSPECIFIED | SERVER | CLIENT.
Inductive LinkType := LT_UNSPECIFIED | CHILD_LINKED_SPAN | PARENT_LINKED_SPAN.

(** The continuation information of a span: extracted from the request
    headers, or read off a span of this process ([span.spanContext]). *)
Inductive SpanContext :=
| Propagated (header : string)
| OfSpan (r : SpanRef).

(** [span.addLink(parent.traceId, parent.id, type)]: both identifiers are
    those of the span [link_to]. *)
Record Link := { link_to : SpanRef; link_type : LinkType }.

Record Span := {
  name : string;
  kind : SpanKind;
  continues : option SpanContext;
  links : list Link;
  ended : bool
}.

Record TraceOptions := {
  to_name : string;
  to_kind : SpanKind;
  to_spanContext : option SpanContext
}.

(** A context object, as far as this package is concerned: whether it has
    the two methods that [addContextHelpers] installs, and the map behind the
    [SPANS] symbol.  All three properties are defined non-writable and
    non-configurable. *)
Record Context := {
  getSpanByPath_fn : bool;
  addSpan_fn : bool;
  SPANS : option (gmap string SpanRef)
}.

(** [{}] *)
Definition plainObject : Context :=
  {| getSpanByPath_fn := false; addSpan_fn := false; SPANS := None |}.

(** The mutable state: the spans the tracer has started (a span's address is
    its position), the context objects, and the [requestSpan] field of the
    extension instance. *)
Record Store := {
  spans : list Span;
  objects : gmap loc Context;
  requestSpan : option SpanRef
}.

Definition M (A : Type) : Type := Store -> Res A * Store.

Definition ret {A} (a : A) : M A := fun st => (Return a, st).
Definition throw {A} (e : Exn) : M A := fun st => (Throw e, st).
Definition bind {A B} (c : M A) (k : A -> M B) : M B :=
  fun st =>
    match c st with
    | (Return a, st') => k a st'
    | (Throw e, st') => (Throw e, st')
    end.

Declare Scope js_scope.
Delimit Scope js_scope with js.
Notation "'let*' x ':=' c 'in' k" := (bind c (fun x => k))
  (at level 10, x pattern, c at level 100, k at level 200) : js_scope.
Notation "c ';;;' k" := (bind c (fun _ => k))
  (at level 100, k at level 200, right associativity) : js_scope.

(** An object or [null]/[undefined] in a condition. *)
Definition truthy {A} (o : option A) : bool :=
  match o with
  | Some _ => true
  | None => false
  end.

(** Reading an object; an address nothing was written to holds [{}]. *)
Definition object_at (st : Store) (obj : loc) : Context :=
  default plainObject (objects st !! obj).

Definition deref (obj : loc) : M Context :=
  fun st => (Return (object_at st obj), st).

(** The three ways the store changes. *)
Definition write_object (obj : loc) (c : Context) (st : Store) : Store :=
  {| spans := spans st; objects := <[obj := c]> (objects st); requestSpan := requestSpan st |}.

Definition write_spans (l : list Span) (st : Store) : Store :=
  {| spans := l; objects := objects st; requestSpan := requestSpan st |}.

Definition write_requestSpan (v : option SpanRef) (st : Store) : Store :=
  {| spans := spans st; objects := objects st; requestSpan := v |}.

Definition assign (obj : loc) (c : Context) : M unit :=
  fun st => (Return tt, write_object obj c st).

Definition get_requestSpan : M (option SpanRef) :=
  fun st => (Return (requestSpan st), st).

Definition set_requestSpan (v : option SpanRef) : M unit :=
  fun st => (Return tt, write_requestSpan v st).

Definition run_hook (c : Completion) : M unit :=
  match c with
  | Normal => ret tt
  | Abrupt v => throw (Thrown v)
  end.

(** *** The tracer

    The tracing library is not part of the repository; its operations are
    those that the code calls. *)

Definition update_span (f : Span -> Span) (r : SpanRef) : M unit :=
  fun st => (Return tt, write_spans (alter f r (spans st)) st).

Definition mark_ended (s : Span) : Span :=
  {| name := name s; kind := kind s; continues := continues s;
     links := links s; ended := true |}.

Definition append_link (l : Link) (s : Span) : Span :=
  {| name := name s; kind := kind s; continues := continues s;
     links := links s ++ [l]; ended := ended s |}.

(** Modelled from the spec: [span.end()] of the tracer client; afterwards
    the span reports [ended]. *)
Definition span_end (r : SpanRef) : M unit := update_span mark_ended r.

(** Modelled from the spec: [span.addLink(traceId, spanId, type)] of the
    tracer client. *)
Definition span_addLink (r : SpanRef) (l : Link) : M unit := update_span (append_link l) r.

(** The span a tracer makes from its options. *)
Definition new_span (options : TraceOptions) : Span :=
  {| name := to_name options; kind := to_kind options;
     continues := to_spanContext options; links := []; ended := false |}.

(** Modelled from the spec: [tracer.startRootSpan(options, fn)] of the
    tracer client; it starts a span and hands it to [fn], whose result it
    returns. *)
Definition startRootSpan {A} (options : TraceOptions) (fn : SpanRef -> M A) : M A :=
  fun st =>
    let r := length (spans st) in
    fn r (write_spans (spans st ++ [new_span options]) st).

End Runtime.

(** ** The span registry ([src/context.ts], lines 22-65) *)

Module Registry.
Import PathCodec Runtime.
Local Open Scope js_scope.

(** [obj.getSpanByPath instanceof Function && obj.addSpan instanceof Function] *)
Definition isSpanContext (obj : Context) : bool :=
  getSpanByPath_fn obj && addSpan_fn obj.

(** The closure stored under ["getSpanByPath"]; [obj] is the object
    [addContextHelpers] was called on. *)
Definition getSpanByPath_closure (obj : loc) (path : ResponsePath) : M (option SpanRef) :=
  let* o := deref obj in
  match SPANS o with
  | None => throw (TypeError "Cannot read properties of undefined (reading 'get')")
  | Some m => ret (m !! buildPath (if isArrayPath path then prev path else Some path))
  end.

(** The closure stored under ["addSpan"]; it reads [info.path] only. *)
Definition addSpan_closure (obj : loc) (span : SpanRef) (info_path : option ResponsePath)
  : M unit :=
  let* o := deref obj in
  match SPANS o with
  | None => throw (TypeError "Cannot read properties of undefined (reading 'set')")
  | Some m =>
      assign obj {| getSpanByPath_fn := getSpanByPath_fn o; addSpan_fn := addSpan_fn o;
                    SPANS := Some (<[buildPath info_path := span]> m) |}
  end.

(** [context.getSpanByPath(path)] and [context.addSpan(span, info)] as method
    calls: calling a property that is not there throws. *)
Definition getSpanByPath (context : loc) (path : ResponsePath) : M (option SpanRef) :=
  let* o := deref context in
  if getSpanByPath_fn o then getSpanByPath_closure context path
  else throw (TypeError "context.getSpanByPath is not a function").

Definition addSpan (context : loc) (span : SpanRef) (info_path : option ResponsePath)
  : M unit :=
  let* o := deref context in
  if addSpan_fn o then addSpan_closure context span info_path
  else throw (TypeError "context.addSpan is not a function").

(** The three [Object.defineProperty] calls.  Redefining a property that is
    already there, non-writable and non-configurable, with a fresh value
    throws. *)
Definition define_SPANS (obj : loc) : M unit :=
  let* o := deref obj in
  match SPANS o with
  | Some _ => throw (TypeError "Cannot redefine property: Symbol(spans)")
  | None =>
      assign obj {| getSpanByPath_fn := getSpanByPath_fn o; addSpan_fn := addSpan_fn o;
                    SPANS := Some ∅ |}
  end.

Definition define_getSpanByPath (obj : loc) : M unit :=
  let* o := deref obj in
  if getSpanByPath_fn o then throw (TypeError "Cannot redefine property: getSpanByPath")
  else assign obj {| getSpanByPath_fn := true; addSpan_fn := addSpan_fn o; SPANS := SPANS o |}.

Definition define_addSpan (obj : loc) : M unit :=
  let* o := deref obj in
  if addSpan_fn o then throw (TypeError "Cannot redefine property: addSpan")
  else assign obj {| getSpanByPath_fn := getSpanByPath_fn o; addSpan_fn := true; SPANS := SPANS o |}.

(** [addContextHelpers(obj)]; the value returned is [obj] itself. *)
Definition addContextHelpers (obj : loc) : M loc :=
  let* o := deref obj in
  if isSpanContext o then ret obj
  else
    define_SPANS obj ;;;
    define_getSpanByPath obj ;;;
    define_addSpan obj ;;;
    ret obj.

End Registry.

(** ** The extension ([src/index.ts]) *)

Module Builder.
Import PathCodec Runtime Registry.
Local Open Scope js_scope.

(** [info.fieldNodes[i]]: [alias] holds the [value] of the alias name node. *)
Record FieldNode := { alias : option string }.

(** The fields of [ExtendedGraphQLResolveInfo] that the code reads or
    writes; the unit tests call with [{}], so each may be missing. *)
Record Info := {
  fieldName : option string;
  fieldNodes : option (list FieldNode);
  path : option ResponsePath;
  span : option SpanRef
}.

Record Request := { headers : option (gmap string string) }.

Record RequestStart := {
  request : option Request;
  operationName : option string;
  context : loc
}.

(** The tracer object: its propagation extractor.  The spans it starts are
    in the store. *)
Record Tracer := {
  extract : (string -> option string) -> option SpanContext
}.

Record InitOptions := {
  opt_tracer : option Tracer;
  opt_onFieldResolveFinish : option (Value -> Value -> SpanRef -> Completion);
  opt_onFieldResolve : option (Value -> Value -> loc -> Info -> Completion);
  opt_shouldTraceRequest : option (RequestStart -> bool);
  opt_shouldTraceFieldResolver : option (Value -> Value -> loc -> Info -> bool);
  opt_onRequestResolve : option (SpanRef -> RequestStart -> Completion)
}.

(** The fields of an instance that are set once; [requestSpan] is in the
    store. *)
Record OpencensusExtension := {
  tracer : Tracer;
  onFieldResolveFinish : option (Value -> Value -> SpanRef -> Completion);
  onFieldResolve : option (Value -> Value -> loc -> Info -> Completion);
  shouldTraceRequest : RequestStart -> bool;
  shouldTraceFieldResolver : Value -> Value -> loc -> Info -> bool;
  onRequestResolve : SpanRef -> RequestStart -> Completion
}.

Definition alwaysTrue {A} : A -> bool := fun _ => true.
Definition emptyFunction : SpanRef -> RequestStart -> Completion := fun _ _ => Normal.

Definition getFieldName (info : Info) : string :=
  match fieldNodes info with
  | Some ({| alias := Some value |} :: _) => value
  | _ =>
      match fieldName info with
      | Some s => if decide (s = "") then "field" else s
      | None => "field"
      end
  end.

Definition constructor (options : InitOptions) : M OpencensusExtension :=
  match opt_tracer options with
  | None =>
      throw (Error "ApolloOpencensus needs a tracer, please provide it to the constructor. e.g. new ApolloOpencensus({ tracer })")
  | Some tr =>
      set_requestSpan None ;;;
      ret {| tracer := tr;
             shouldTraceRequest := default alwaysTrue (opt_shouldTraceRequest options);
             shouldTraceFieldResolver :=
               default (fun _ _ _ => alwaysTrue) (opt_shouldTraceFieldResolver options);
             onFieldResolveFinish := opt_onFieldResolveFinish options;
             onFieldResolve := opt_onFieldResolve options;
             onRequestResolve := default emptyFunction (opt_onRequestResolve options) |}
  end.

(** The closure [requestDidStart] returns; it has captured [rootSpan]. *)
Inductive RequestFinish := requestFinish (rootSpan : SpanRef).

Definition call_requestFinish (f : RequestFinish) : M unit :=
  let 'requestFinish rootSpan := f in
  span_end rootSpan.

Definition requestDidStart (this : OpencensusExtension) (infos : RequestStart)
  : M (option RequestFinish) :=
  if negb (shouldTraceRequest this infos) then ret None
  else
    let getter : string -> option string :=
      fun name =>
        match request infos with
        | Some {| headers := Some h |} => h !! name
        | _ => None
        end in
    let spanContext :=
      match request infos with
      | Some {| headers := Some _ |} => extract (tracer this) getter
      | _ => None
      end in
    let traceOptions :=
      {| to_name := "request"; to_kind := SERVER; to_spanContext := spanContext |} in
    let* rootSpan := startRootSpan traceOptions (fun rootSpan => ret rootSpan) in
    run_hook (onRequestResolve this rootSpan infos) ;;;
    set_requestSpan (Some rootSpan) ;;;
    ret (Some (requestFinish rootSpan)).

(** The closure [willResolveField] returns; it has captured [this] and
    [span]. *)
Inductive FieldFinish := fieldFinish (this : OpencensusExtension) (span : SpanRef).

Definition call_fieldFinish (f : FieldFinish) (error result : Value) : M unit :=
  let 'fieldFinish this span := f in
  match onFieldResolveFinish this with
  | Some hook => run_hook (hook error result span)
  | None => ret tt
  end ;;;
  span_end span.

(** [info.path && info.path.prev] *)
Definition path_prev (info : Info) : option ResponsePath :=
  match path info with
  | Some p => prev p
  | None => None
  end.

(** [willResolveField]; its result is the [info] object as the call leaves
    it and the returned closure, if any. *)
Definition willResolveField (this : OpencensusExtension)
    (source args : Value) (context : loc) (info : Info) : M (Info * option FieldFinish) :=
  let* requestSpan := get_requestSpan in
  let* skip :=
    if negb (truthy requestSpan) then ret true
    else if negb (shouldTraceFieldResolver this source args context info) then ret true
    else
      match path_prev info with
      | Some p =>
          let* parent := getSpanByPath context p in
          ret (negb (truthy parent))
      | None => ret false
      end in
  if skip : bool then ret (info, None)
  else
    addContextHelpers context ;;;
    let name := getFieldName info in
    let* parentSpan :=
      match path_prev info with
      | Some p => getSpanByPath context p
      | None => ret requestSpan
      end in
    let traceOptions :=
      {| to_name := name; to_kind := SERVER; to_spanContext := OfSpan <$> parentSpan |} in
    let* span :=
      startRootSpan traceOptions (fun span =>
        match parentSpan with
        | Some parent =>
            span_addLink span {| link_to := parent; link_type := CHILD_LINKED_SPAN |}
        | None => ret tt
        end ;;;
        ret span) in
    addSpan context span (path info) ;;;
    let info := {| fieldName := fieldName info; fieldNodes := fieldNodes info;
                   path := path info; span := Some span |} in
    match onFieldResolve this with
    | Some hook => run_hook (hook source args context info)
    | None => ret tt
    end ;;;
    ret (info, Some (fieldFinish this span)).

(** What the host does to an extension instance while it executes a
    request: it announces a field, or it calls a closure it was handed. *)
Inductive Event :=
| WillResolveField (source args : Value) (context : loc) (info : Info)
| FieldDone (f : FieldFinish) (error result : Value)
| RequestDone (f : RequestFinish).

Definition step (this : OpencensusExtension) (ev : Event) (st : Store) : Store :=
  match ev with
  | WillResolveField source args context info =>
      snd (willResolveField this source args context info st)
  | FieldDone f error result => snd (call_fieldFinish f error result st)
  | RequestDone f => snd (call_requestFinish f st)
  end.

Definition run (this : OpencensusExtension) (evs : list Event) (st : Store) : Store :=
  foldl (fun st ev => step this ev st) st evs.

(** *** Vocabulary of the properties *)

(** The key [getSpanByPath] looks up for [path]. *)
Definition lookup_key (path : ResponsePath) : string :=
  buildPath (if isArrayPath path then prev path else Some path).

(** What [context.getSpanByPath(path)] finds, when the method is there. *)
Definition registered (st : Store) (context : loc) (path : ResponsePath) : option SpanRef :=
  SPANS (object_at st context) ≫= fun m => m !! lookup_key path.

(** No registry holds a key of the subtree at [n]. *)
Definition registry_clear (n : ResponsePath) (st : Store) : Prop :=
  forall obj m p,
    SPANS (object_at st obj) = Some m -> under n p -> wf_path p = true ->
    m !! buildPath (Some p) = None.

(** The paths the host announces are made of response names and indices. *)
Definition wf_event (ev : Event) : Prop :=
  match ev with
  | WillResolveField _ _ _ info => wf_chain (path info) = true
  | _ => True
  end.

(** Whenever the host announces the field at the position of [n], the field
    predicate refuses it. *)
Definition refused_at (this : OpencensusExtension) (n : ResponsePath) (ev : Event) : Prop :=
  match ev with
  | WillResolveField source args context info =>
      chain_keys (path info) = path_keys n ->
      shouldTraceFieldResolver this source args context info = false
  | _ => True
  end.

Definition is_visit (ev : Event) : Prop :=
  match ev with
  | WillResolveField _ _ _ _ => True
  | _ => False
  end.

(** How the [onFieldResolveFinish] hook of [this] completes, [Normal] if
    none is configured. *)
Definition finish_hook_completion (this : OpencensusExtension)
    (error result : Value) (span : SpanRef) : Completion :=
  match onFieldResolveFinish this with
  | Some hook => hook error result span
  | None => Normal
  end.

(** A context object nobody tampered with: a plain one, or one with all
    three properties. *)
Definition coherent (c : Context) : bool :=
  match SPANS c with
  | Some _ => getSpanByPath_fn c && addSpan_fn c
  | None => negb (getSpanByPath_fn c) && negb (addSpan_fn c)
  end.

(** [{ getSpanByPath, addSpan, [SPANS]: new Map() }] *)
Definition withHelpers : Context :=
  {| getSpanByPath_fn := true; addSpan_fn := true; SPANS := Some ∅ |}.

(** The registry of [st'] has no key that is neither in [K] nor in the
    registry of the same object in [st]. *)
Definition grows (K : string -> Prop) (st st' : Store) : Prop :=
  forall obj m' k,
    SPANS (object_at st' obj) = Some m' -> is_Some (m' !! k) ->
    K k \/ exists m, SPANS (object_at st obj) = Some m /\ is_Some (m !! k).

(** The spans of [st] are still there in [st'], and those that had ended
    have ended. *)
Definition spans_kept (st st' : Store) : Prop :=
  forall r s, spans st !! r = Some s ->
    exists s', spans st' !! r = Some s' /\ (ended s = true -> ended s' = true).

Definition preserves {A} (R : Store -> Store -> Prop) (c : M A) : Prop :=
  forall st, R st (c st).2.

Definition same_requestSpan (st st' : Store) : Prop := requestSpan st' = requestSpan st.

(** The span a traced field gets: named after the field, continuing the
    parent span and linked to it. *)
Definition field_span (info : Info) (parentSpan : option SpanRef) : Span :=
  {| name := getFieldName info; kind := SERVER; continues := OfSpan <$> parentSpan;
     links := match parentSpan with
              | Some parent => [{| link_to := parent; link_type := CHILD_LINKED_SPAN |}]
              | None => []
              end;
     ended := false |}.

(** The [info] object after [info.span = span]. *)
Definition expose (info : Info) (span : SpanRef) : Info :=
  {| fieldName := fieldName info; fieldNodes := fieldNodes info;
     path := path info; span := Some span |}.

(** A series of [addSpan] calls, each on some context object. *)
Definition run_writes (writes : list (loc * SpanRef * option ResponsePath)) (st : Store)
  : Store :=
  foldl (fun st w => (addSpan w.1.1 w.1.2 w.2 st).2) st writes.

(** Writes that leave the key [k] of the object [obj] alone. *)
Definition other_key (obj : loc) (k : string) (w : loc * SpanRef * option ResponsePath)
  : Prop :=
  w.1.1 = obj -> buildPath w.2 <> k.

(** The path key as the documentation words it for chains with missing
    keys: those keys are skipped. *)
Definition pathKey_skipping (p : option ResponsePath) : string :=
  join "." (key_segment <$> filter (fun k => k <> KUndefined) (chain_keys p)).

End Builder.

(** ** Concrete requests *)

Module Examples.
Import PathCodec Runtime Registry Builder.

Definition node_a : ResponsePath := named None "a".
Definition node_a_one : ResponsePath := named (Some node_a) "one".
Definition node_as : ResponsePath := named None "as".
Definition node_as_0 : ResponsePath := indexed (Some node_as) 0.
Definition node_a_undefined : ResponsePath :=
  {| prev := Some node_a; key := KUndefined; oid := 1 |}.

Definition field (name : string) (p : ResponsePath) : Info :=
  {| fieldName := Some name; fieldNodes := Some [{| alias := None |}];
     path := Some p; span := None |}.

(** A store with nothing in it, and one whose object [0] has the helpers. *)
Definition empty_store : Store := {| spans := []; objects := ∅; requestSpan := None |}.

Definition attached_store : Store :=
  {| spans := []; objects := {[ 0 := withHelpers ]}; requestSpan := None |}.

Definition no_propagation : Tracer := {| extract := fun _ => None |}.

Definition options (finishHook : option (Value -> Value -> SpanRef -> Completion))
    (requestPredicate : option (RequestStart -> bool))
    (fieldPredicate : option (Value -> Value -> loc -> Info -> bool)) : InitOptions :=
  {| opt_tracer := Some no_propagation;
     opt_onFieldResolveFinish := finishHook;
     opt_onFieldResolve := None;
     opt_shouldTraceRequest := requestPredicate;
     opt_shouldTraceFieldResolver := fieldPredicate;
     opt_onRequestResolve := None |}.

(** The instance [new ApolloOpencensus(options)] makes; [constructor]
    returns it on any store. *)
Definition instance (o : InitOptions) : OpencensusExtension :=
  {| tracer := no_propagation;
     shouldTraceRequest := default alwaysTrue (opt_shouldTraceRequest o);
     shouldTraceFieldResolver :=
       default (fun _ _ _ => alwaysTrue) (opt_shouldTraceFieldResolver o);
     onFieldResolveFinish := opt_onFieldResolveFinish o;
     onFieldResolve := opt_onFieldResolve o;
     onRequestResolve := default emptyFunction (opt_onRequestResolve o) |}.

Definition plain_extension : OpencensusExtension := instance (options None None None).

(** An instance whose [onFieldResolveFinish] hook throws. *)
Definition throwing_extension : OpencensusExtension :=
  instance (options (Some (fun _ _ _ => Abrupt (VOpaque 1))) None None).

(** The field predicate of the integration test: every field but [a]. *)
Definition not_a : Value -> Value -> loc -> Info -> bool :=
  fun _ _ _ info => negb (bool_decide (fieldName info = Some "a")).

Definition skipping_a : OpencensusExtension := instance (options None None (Some not_a)).


Definition post : RequestStart :=
  {| request := Some {| headers := Some ∅ |}; operationName := None; context := 0 |}.

(** The fields of the integration tests, as the executor announces them. *)
Definition visit (name : string) (p : ResponsePath) : Event :=
  WillResolveField VUndefined VUndefined 0 (field name p).

Definition element (i : N) : ResponsePath := indexed (Some node_as) i.

(** [{ a { one } }] *)
Definition query_a_one : list Event :=
  [visit "a" node_a; visit "one" node_a_one].

(** [{ as { one two } }] on a list of three elements. *)
Definition query_as : list Event :=
  visit "as" node_as ::
  flat_map (fun i => [visit "one" (named (Some (element i)) "one");
                      visit "two" (named (Some (element i)) "two")])
           [0; 1; 2]%N.

(** Every closure for the spans [1 .. n] of [this] is called, then the one
    for the request span [0]. *)
Definition finish_all (this : OpencensusExtension) (n : nat) : list Event :=
  ((fun r => FieldDone (fieldFinish this r) VNull (VOpaque 0)) <$> seq 1 n)
  ++ [RequestDone (requestFinish 0)].

(** A whole request: [requestDidStart], the fields, the closures. *)
Definition serve (this : OpencensusExtension) (fields : list Event) (n : nat) : Store :=
  run this (fields ++ finish_all this n) (requestDidStart this post empty_store).2.

(** A store in which a request span, span [0], is open. *)
Definition request_open : Store :=
  {| spans := [new_span {| to_name := "request"; to_kind := SERVER; to_spanContext := None |}];
     objects := ∅; requestSpan := Some 0 |}.




End Examples.

(** ** The rest of the extension, and what a call comes to *)

Module Outcome.
Import PathCodec Runtime Registry Builder.

(** [mapToObj(inputMap)] ([src/index.ts], lines 114-122).  The map is given
    by its entries in insertion order, which is the order of [forEach]; the
    values are strings, as the type of the result says.  The result starts as
    [{}], whose prototype has the accessor [__proto__]: assigning a string to
    that key is ignored and makes no property. *)
Definition set_property (obj : gmap string string) (key value : string)
  : gmap string string :=
  if decide (key = "__proto__") then obj else <[key := value]> obj.

Definition mapToObj (inputMap : list (string * string)) : gmap string string :=
  foldl (fun obj entry => set_property obj entry.1 entry.2) ∅ inputMap.

(** The registry of the object at [obj], empty if there is none. *)
Definition registry_or_empty (st : Store) (obj : loc) : gmap string SpanRef :=
  default ∅ (SPANS (object_at st obj)).

(** How the [onFieldResolve] hook of [this] completes, [Normal] if none is
    configured. *)
Definition resolve_hook_completion (this : OpencensusExtension)
    (source args : Value) (context : loc) (info : Info) : Completion :=
  match onFieldResolve this with
  | Some hook => hook source args context info
  | None => Normal
  end.

(** The span under which a field is traced: what the registry holds for the
    node before it, or the request span for a top-level field. *)
Definition parent_span (st : Store) (context : loc) (info : Info) : option SpanRef :=
  match path_prev info with
  | Some p => registered st context p
  | None => requestSpan st
  end.

(** The store after a field was traced under [parent]: one more span, and
    the context object carries the helpers and the new entry. *)
Definition traced_store (context : loc) (info : Info) (parent : option SpanRef)
    (st : Store) : Store :=
  write_object context
    {| getSpanByPath_fn := true; addSpan_fn := true;
       SPANS := Some (<[buildPath (path info) := length (spans st)]>
                        (registry_or_empty st context)) |}
    (write_spans (spans st ++ [field_span info parent]) st).

Definition traced (this : OpencensusExtension) (source args : Value) (context : loc)
    (info : Info) (parent : option SpanRef) (st : Store)
  : Res (Info * option FieldFinish) * Store :=
  let span := length (spans st) in
  (match resolve_hook_completion this source args context (expose info span) with
   | Normal => Return (expose info span, Some (fieldFinish this span))
   | Abrupt thrown => Throw (Thrown thrown)
   end,
   traced_store context info parent st).

(** What a call of [willResolveField] comes to on a context object that is
    plain or carries the helpers. *)
Definition willResolveField_outcome (this : OpencensusExtension)
    (source args : Value) (context : loc) (info : Info) (st : Store)
  : Res (Info * option FieldFinish) * Store :=
  match requestSpan st with
  | None => (Return (info, None), st)
  | Some root =>
      if shouldTraceFieldResolver this source args context info then
        match path_prev info with
        | None => traced this source args context info (Some root) st
        | Some p =>
            if getSpanByPath_fn (object_at st context) then
              match registered st context p with
              | Some parent => traced this source args context info (Some parent) st
              | None => (Return (info, None), st)
              end
            else (Throw (TypeError "context.getSpanByPath is not a function"), st)
        end
      else (Return (info, None), st)
  end.

(** The continuation information [requestDidStart] hands to the tracer. *)
Definition extracted (this : OpencensusExtension) (infos : RequestStart)
  : option SpanContext :=
  match request infos with
  | Some {| headers := Some h |} => extract (tracer this) (fun name => h !! name)
  | _ => None
  end.

Definition request_span (this : OpencensusExtension) (infos : RequestStart) : Span :=
  {| name := "request"; kind := SERVER; continues := extracted this infos;
     links := []; ended := false |}.

(** Every context object is plain or carries all three properties. *)
Definition all_coherent (st : Store) : Prop :=
  forall obj, coherent (object_at st obj) = true.

(** Every entry of a registry of [st] is there in [st'], under the same
    key. *)
Definition keeps (st st' : Store) : Prop :=
  forall obj m k,
    SPANS (object_at st obj) = Some m -> is_Some (m !! k) ->
    exists m', SPANS (object_at st' obj) = Some m' /\ is_Some (m' !! k).

(** The entries under the key [k] are the same in [st'] as in [st]. *)
Definition keeps_key (k : string) (st st' : Store) : Prop :=
  forall obj m s,
    SPANS (object_at st obj) = Some m -> m !! k = Some s ->
    exists m', SPANS (object_at st' obj) = Some m' /\ m' !! k = Some s.

(** No object but the one at [context] differs between [st] and [st']. *)
Definition others_untouched (context : loc) (st st' : Store) : Prop :=
  forall obj, obj <> context -> object_at st' obj = object_at st obj.

(** An event that is not a visit of a node with the path key [k]. *)
Definition away_from (k : string) (ev : Event) : Prop :=
  match ev with
  | WillResolveField _ _ _ info => buildPath (path info) <> k
  | _ => True
  end.

(** The host announces field nodes: the last key of the path is a response
    name, and the path is well formed. *)
Definition field_event (ev : Event) : Prop :=
  match ev with
  | WillResolveField _ _ _ info =>
      exists p, path info = Some p /\ wf_path p = true /\ isArrayPath p = false
  | _ => True
  end.

(** Every key of every registry is the path key of a field node. *)
Definition field_keys (st : Store) : Prop :=
  forall obj m k,
    SPANS (object_at st obj) = Some m -> is_Some (m !! k) ->
    exists p, wf_path p = true /\ isArrayPath p = false /\ k = buildPath (Some p).

(** The hooks of [this] that are configured return. *)
Definition hooks_return (this : OpencensusExtension) : Prop :=
  (forall source args context info,
     resolve_hook_completion this source args context info = Normal) /\
  (forall error result span,
     finish_hook_completion this error result span = Normal).

(** *** The host

    The host announces fields and calls the closures it was handed, each at
    most once and in any order. *)
Inductive Action :=
| Announce (source args : Value) (context : loc) (info : Info)
| Complete (i : nat) (error result : Value).

Record Host := {
  store : Store;
  pending : list FieldFinish
}.

Definition act (this : OpencensusExtension) (h : Host) (a : Action) : Host :=
  match a with
  | Announce source args context info =>
      let '(r, st') := willResolveField this source args context info (store h) in
      {| store := st';
         pending := pending h ++
                    match r with
                    | Return (_, Some f) => [f]
                    | _ => []
                    end |}
  | Complete i error result =>
      match pending h !! i with
      | Some f =>
          {| store := (call_fieldFinish f error result (store h)).2;
             pending := delete i (pending h) |}
      | None => h
      end
  end.

Definition host_run (this : OpencensusExtension) (actions : list Action) (h : Host) : Host :=
  foldl (act this) h actions.

(** What holds of the host's state all along a request whose request span
    is [root]: the closures it holds are closures of [this] for field spans,
    and every field span has ended or has its closure with the host. *)
Definition accounted (this : OpencensusExtension) (root : SpanRef) (h : Host) : Prop :=
  all_coherent (store h) /\
  (forall f, f ∈ pending h -> exists r, f = fieldFinish this r) /\
  (forall r s, root < r -> spans (store h) !! r = Some s ->
     ended s = true \/ fieldFinish this r ∈ pending h).

(** A span of [st] is still there in [st'], with its name, its kind and
    what it continues, and ended if it had ended. *)
Definition spans_stay (st st' : Store) : Prop :=
  forall r s, spans st !! r = Some s ->
    exists s', spans st' !! r = Some s' /\
      name s' = name s /\ kind s' = kind s /\ continues s' = continues s /\
      (ended s = true -> ended s' = true).

(** *** More instances *)

(** An instance whose [onFieldResolve] hook throws, one whose
    [onRequestResolve] hook throws, and one with a tracer only. *)
Definition resolve_throws : OpencensusExtension :=
  {| tracer := Examples.no_propagation;
     onFieldResolveFinish := None;
     onFieldResolve := Some (fun _ _ _ _ => Abrupt (VOpaque 2));
     shouldTraceRequest := alwaysTrue;
     shouldTraceFieldResolver := fun _ _ _ => alwaysTrue;
     onRequestResolve := emptyFunction |}.

Definition request_hook_throws : OpencensusExtension :=
  {| tracer := Examples.no_propagation;
     onFieldResolveFinish := None;
     onFieldResolve := None;
     shouldTraceRequest := alwaysTrue;
     shouldTraceFieldResolver := fun _ _ _ => alwaysTrue;
     onRequestResolve := fun _ _ => Abrupt (VOpaque 3) |}.

Definition tracer_only (tr : Tracer) : InitOptions :=
  {| opt_tracer := Some tr;
     opt_onFieldResolveFinish := None;
     opt_onFieldResolve := None;
     opt_shouldTraceRequest := None;
     opt_shouldTraceFieldResolver := None;
     opt_onRequestResolve := None |}.

(** A tracer whose extractor finds the [traceparent] header. *)
Definition traceparent_tracer : Tracer :=
  {| extract := fun getHeader => Propagated <$> getHeader "traceparent" |}.

End Outcome.

(** * Properties *)

(** ** The path codec *)

Module PathFacts.
Import PathCodec.

(** *** Strings *)

Lemma string_app_cons a s t : String a s +:+ t = String a (s +:+ t).
Proof. reflexivity. Qed.

Lemma string_app_assoc s1 s2 s3 : (s1 +:+ s2) +:+ s3 = s1 +:+ (s2 +:+ s3).
Proof. induction s1 as [|a s1 IH]; [done|]. rewrite !string_app_cons. by rewrite IH. Qed.

Lemma string_app_nil_r s : s +:+ "" = s.
Proof. induction s as [|a s IH]; [done|]. rewrite string_app_cons. by rewrite IH. Qed.

Lemma string_app_length s t :
  String.length (s +:+ t) = String.length s + String.length t.
Proof.
  induction s as [|a s IH]; [done|]. rewrite string_app_cons. simpl. by rewrite IH.
Qed.

Lemma string_snoc_inj s1 s2 c : s1 +:+ String c "" = s2 +:+ String c "" -> s1 = s2.
Proof.
  revert s2. induction s1 as [|a s1 IH]; intros [|b s2] H; rewrite ?string_app_cons in H.
  - done.
  - injection H as -> H. destruct s2; discriminate.
  - injection H as -> H. destruct s1; discriminate.
  - injection H as -> H. f_equal. by apply IH.
Qed.

Lemma dotfree_app s t : dotfree (s +:+ t) = dotfree s && dotfree t.
Proof.
  induction s as [|a s IH]; [done|]. rewrite string_app_cons. simpl.
  rewrite IH. by rewrite andb_assoc.
Qed.

Lemma dotfree_string_of_uint d : dotfree (NilEmpty.string_of_uint d) = true.
Proof. induction d; simpl; auto. Qed.

Lemma number_to_string_inj i j : number_to_string i = number_to_string j -> i = j.
Proof.
  unfold number_to_string. intros H. apply DecimalN.Unsigned.to_uint_inj.
  apply (f_equal NilEmpty.uint_of_string) in H. rewrite !NilEmpty.usu in H. congruence.
Qed.

Lemma split_unique x y s1 s2 :
  dotfree x = true -> dotfree y = true ->
  (s1 = "" \/ exists t, s1 = String "."%char t) ->
  (s2 = "" \/ exists t, s2 = String "."%char t) ->
  x +:+ s1 = y +:+ s2 -> x = y /\ s1 = s2.
Proof.
  revert y. induction x as [|a x IH]; intros [|b y] Hx Hy H1 H2 H;
    rewrite ?string_app_cons in H; simpl in *.
  - done.
  - exfalso. destruct H1 as [->|[t ->]]; [done|]. injection H as <- _. done.
  - exfalso. destruct H2 as [->|[t ->]]; [done|]. injection H as -> _. done.
  - injection H as -> H. apply andb_prop in Hx as [_ Hx]. apply andb_prop in Hy as [_ Hy].
    destruct (IH y Hx Hy H1 H2 H) as [-> ->]. done.
Qed.

(** *** Chains *)

(** Induction along [prev]. *)
Lemma ResponsePath_chain_ind (P : ResponsePath -> Prop) :
  (forall p, (forall q, prev p = Some q -> P q) -> P p) ->
  forall p, P p.
Proof.
  intros step. fix IH 1. intros p. apply step.
  destruct p as [[q|] k o]; simpl; intros q' Hq; [|discriminate].
  injection Hq as <-. apply IH.
Qed.

Lemma segment_key p : segment p = key_segment (key p).
Proof. unfold segment, isArrayPath. by destruct (key p). Qed.

Lemma buildPath_loop_acc p acc :
  buildPath_loop p acc = acc ++ buildPath_loop p [].
Proof.
  revert acc. induction p as [p IH] using ResponsePath_chain_ind. intros acc.
  destruct p as [[q|] k o]; simpl.
  - rewrite (IH q eq_refl (acc ++ _)), (IH q eq_refl [_]). by rewrite <- app_assoc.
  - done.
Qed.

Lemma buildPath_loop_keys p :
  reverse (buildPath_loop p []) = key_segment <$> path_keys p.
Proof.
  induction p as [p IH] using ResponsePath_chain_ind.
  destruct p as [[q|] k o]; simpl.
  - rewrite buildPath_loop_acc, reverse_app, (IH q eq_refl), fmap_app. simpl.
    by rewrite segment_key.
  - by rewrite segment_key.
Qed.

Lemma buildPath_keys p : buildPath p = join "." (key_segment <$> chain_keys p).
Proof.
  destruct p as [p|]; simpl; [|done].
  unfold buildPath. by rewrite buildPath_loop_keys.
Qed.

Lemma path_keys_nonempty p : path_keys p <> [].
Proof. destruct p as [[q|] k o]; simpl; [|done]. by destruct (path_keys q). Qed.

Lemma join_snoc sep l e :
  l <> [] -> join sep (l ++ [e]) = join sep l +:+ sep +:+ element_to_string e.
Proof.
  induction l as [|x l IH]; [done|]. intros _.
  destruct l as [|y l]; [done|].
  change (join sep ((x :: y :: l) ++ [e]))
    with (element_to_string x +:+ sep +:+ join sep ((y :: l) ++ [e])).
  rewrite IH by done.
  change (join sep (x :: y :: l)) with (element_to_string x +:+ sep +:+ join sep (y :: l)).
  by rewrite !string_app_assoc.
Qed.

(** The key of a node that has a parent is the parent's key, a dot, and the
    node's own segment. *)
Lemma buildPath_child q k o :
  buildPath (Some {| prev := Some q; key := k; oid := o |})
  = buildPath (Some q) +:+ "." +:+ element_to_string (key_segment k).
Proof.
  rewrite !buildPath_keys. simpl. rewrite fmap_app. simpl.
  apply join_snoc. intros H. apply fmap_nil_inv in H. by apply path_keys_nonempty in H.
Qed.

Lemma buildPath_root k o :
  buildPath (Some {| prev := None; key := k; oid := o |}) = element_to_string (key_segment k).
Proof. unfold buildPath. simpl. by rewrite segment_key. Qed.

(** *** The path key determines the position *)

Lemma join_cons sep e l :
  join sep (e :: l)
  = element_to_string e +:+ match l with [] => "" | _ => sep +:+ join sep l end.
Proof. destruct l; simpl; [by rewrite string_app_nil_r|done]. Qed.

Lemma join_inj l1 l2 :
  Forall good_segment l1 -> Forall good_segment l2 ->
  join "." l1 = join "." l2 -> l1 = l2.
Proof.
  intros H1. revert l2. induction H1 as [|e1 l1 (s1 & -> & Hne1 & Hd1) _ IH];
    intros l2 H2 H; destruct H2 as [|e2 l2 (s2 & -> & Hne2 & Hd2) H2].
  - done.
  - rewrite join_cons in H. simpl in H. destruct s2; [done|discriminate].
  - rewrite join_cons in H. simpl in H. destruct s1; [done|discriminate].
  - rewrite !join_cons in H. simpl in H.
    apply split_unique in H as [-> H]; [| done | done | |].
    + f_equal. destruct l1 as [|x l1], l2 as [|y l2]; [done|done|done|].
      apply IH; [done|]. by injection H.
    + destruct l1; [by left|right; eauto].
    + destruct l2; [by left|right; eauto].
Qed.

Lemma index_segment_cons i :
  "[" +:+ number_to_string i +:+ "]" = String "["%char (number_to_string i +:+ "]").
Proof. reflexivity. Qed.

Lemma wf_name_good s : wf_name s = true -> s <> "" /\ dotfree s = true.
Proof. destruct s; [done|]. unfold wf_name. intros [_ H]%andb_prop. done. Qed.

Lemma wf_key_good k : wf_key k = true -> good_segment (key_segment k).
Proof.
  destruct k as [|s|i]; simpl; [done| |]; intros H.
  - exists s. split; [done|]. by apply wf_name_good.
  - eexists. split; [done|]. split; [done|].
    rewrite index_segment_cons. simpl.
    rewrite dotfree_app. unfold number_to_string. by rewrite dotfree_string_of_uint.
Qed.

Lemma key_segment_inj k1 k2 :
  wf_key k1 = true -> wf_key k2 = true -> key_segment k1 = key_segment k2 -> k1 = k2.
Proof.
  destruct k1 as [|s1|i1], k2 as [|s2|i2]; simpl; try done; intros H1 H2 H.
  - congruence.
  - exfalso. injection H as ->. by rewrite index_segment_cons in H1.
  - exfalso. injection H as <-. by rewrite index_segment_cons in H2.
  - injection H as H. apply string_snoc_inj, number_to_string_inj in H. by subst.
Qed.

Lemma key_segments_inj l1 l2 :
  forallb wf_key l1 = true -> forallb wf_key l2 = true ->
  key_segment <$> l1 = key_segment <$> l2 -> l1 = l2.
Proof.
  revert l2. induction l1 as [|k1 l1 IH]; intros [|k2 l2]; simpl; try done.
  intros [H1 H1']%andb_prop [H2 H2']%andb_prop H. injection H as H H'.
  f_equal; [by apply key_segment_inj|by apply IH].
Qed.

Lemma good_segments l : forallb wf_key l = true -> Forall good_segment (key_segment <$> l).
Proof.
  induction l as [|k l IH]; simpl; [constructor|].
  intros [H1 H2]%andb_prop. constructor; [by apply wf_key_good|by apply IH].
Qed.

(** On well-formed chains the path key determines the keys of the chain. *)
Lemma buildPath_inj p q :
  wf_chain p = true -> wf_chain q = true ->
  buildPath p = buildPath q -> chain_keys p = chain_keys q.
Proof.
  unfold wf_chain. intros Hp Hq H. rewrite !buildPath_keys in H.
  apply join_inj in H; [|by apply good_segments..].
  by apply key_segments_inj.
Qed.

End PathFacts.

(** ** The registry *)

Module RegistryFacts.
Import PathCodec Runtime Registry Builder PathFacts.

(** The map behind [SPANS] on the object at [obj], if it is there. *)
Abbreviation registry_at st obj := (SPANS (object_at st obj)).

Global Arguments object_at : simpl never.
Global Arguments write_object : simpl never.
Global Arguments write_spans : simpl never.
Global Arguments write_requestSpan : simpl never.

Lemma object_at_write obj c st obj' :
  object_at (write_object obj c st) obj' = if decide (obj = obj') then c else object_at st obj'.
Proof.
  unfold object_at, write_object. simpl. case_decide as H.
  - subst. by rewrite lookup_insert_eq.
  - by rewrite lookup_insert_ne.
Qed.

Lemma getSpanByPath_attached context path st m :
  getSpanByPath_fn (object_at st context) = true ->
  registry_at st context = Some m ->
  getSpanByPath context path st = (Return (m !! lookup_key path), st).
Proof.
  intros Hf Hm. unfold getSpanByPath, getSpanByPath_closure, bind, deref. simpl.
  by rewrite Hf, Hm.
Qed.

Lemma getSpanByPath_missing context path st :
  getSpanByPath_fn (object_at st context) = false ->
  getSpanByPath context path st
  = (Throw (TypeError "context.getSpanByPath is not a function"), st).
Proof. intros Hf. unfold getSpanByPath, bind, deref. simpl. by rewrite Hf. Qed.

Lemma getSpanByPath_pure context path st : (getSpanByPath context path st).2 = st.
Proof.
  unfold getSpanByPath, getSpanByPath_closure, bind, deref. simpl.
  destruct (getSpanByPath_fn _); [|done]. by destruct (SPANS _).
Qed.

Lemma addSpan_attached context span info_path st m :
  addSpan_fn (object_at st context) = true ->
  registry_at st context = Some m ->
  addSpan context span info_path st
  = (Return tt,
     write_object context
        {| getSpanByPath_fn := getSpanByPath_fn (object_at st context);
           addSpan_fn := true;
           SPANS := Some (<[buildPath info_path := span]> m) |} st).
Proof.
  intros Hf Hm. unfold addSpan, addSpan_closure, bind, deref, assign. simpl.
  rewrite Hf, Hm. by rewrite ?Hf.
Qed.

Lemma addContextHelpers_attached obj st :
  isSpanContext (object_at st obj) = true ->
  addContextHelpers obj st = (Return obj, st).
Proof. intros H. unfold addContextHelpers, bind, deref. simpl. by rewrite H. Qed.

Lemma addContextHelpers_plain obj st :
  object_at st obj = plainObject ->
  addContextHelpers obj st = (Return obj, write_object obj withHelpers st).
Proof.
  intros H. unfold addContextHelpers, define_SPANS, define_getSpanByPath, define_addSpan.
  unfold bind, deref, assign. simpl.
  do 4 (rewrite ?H, ?object_at_write, ?decide_True by done; simpl).
  unfold write_object. simpl. by rewrite !insert_insert_eq.
Qed.

(** Case analysis on the object at [obj], then evaluation. *)
Ltac case_object st obj :=
  let g := fresh "g" in let a := fresh "a" in let m := fresh "m" in
  let Ho := fresh "Ho" in
  simpl;
  destruct (object_at st obj) as [g a [m|]] eqn:Ho; destruct g, a;
  do 4 (simpl; rewrite ?Ho, ?object_at_write, ?decide_True by done); simpl.

Ltac unfold_registry :=
  unfold addContextHelpers, define_SPANS, define_getSpanByPath, define_addSpan,
    addSpan, addSpan_closure, getSpanByPath, getSpanByPath_closure,
    isSpanContext, bind, deref, assign, ret, throw.

(** The registry functions touch context objects only. *)
Lemma addContextHelpers_tracer obj st :
  spans (addContextHelpers obj st).2 = spans st /\
  requestSpan (addContextHelpers obj st).2 = requestSpan st.
Proof. unfold_registry. by case_object st obj. Qed.

Lemma addSpan_tracer obj span info_path st :
  spans (addSpan obj span info_path st).2 = spans st /\
  requestSpan (addSpan obj span info_path st).2 = requestSpan st.
Proof. unfold_registry. by case_object st obj. Qed.

Lemma grows_refl K st : grows K st st.
Proof. intros obj m k Hm Hk. right. eauto. Qed.

Lemma grows_trans K st1 st2 st3 : grows K st1 st2 -> grows K st2 st3 -> grows K st1 st3.
Proof.
  intros H12 H23 obj m k Hm Hk.
  destruct (H23 obj m k Hm Hk) as [?|(m2 & Hm2 & Hk2)]; [by left|]. eauto.
Qed.

Lemma grows_same_objects K st st' : objects st' = objects st -> grows K st st'.
Proof.
  intros H obj m k Hm Hk. right. exists m. split; [|done].
  unfold object_at in *. by rewrite <- H.
Qed.

Lemma grows_write_empty K obj c st st1 :
  SPANS c = Some ∅ -> grows K st st1 -> grows K st (write_object obj c st1).
Proof.
  intros Hc H obj' m' k. rewrite object_at_write. case_decide as Heq; [|apply H].
  rewrite Hc. intros [= <-]. rewrite lookup_empty. by intros [? ?].
Qed.

Lemma addContextHelpers_grows K obj : preserves (grows K) (addContextHelpers obj).
Proof.
  intros st. unfold_registry. case_object st obj; try apply grows_refl.
  all: repeat (apply grows_write_empty; [done|]); apply grows_refl.
Qed.

Lemma addSpan_grows obj span info_path :
  preserves (grows (eq (buildPath info_path))) (addSpan obj span info_path).
Proof.
  intros st. unfold_registry. case_object st obj; try apply grows_refl.
  all: intros obj' m' k; rewrite object_at_write; case_decide as Heq;
    [|intros; right; eauto].
  all: subst obj'; simpl; intros [= <-] Hk.
  all: destruct (decide (buildPath info_path = k)) as [|Hne]; [by left|right].
  all: rewrite lookup_insert_ne in Hk by done; rewrite Ho; eauto.
Qed.

End RegistryFacts.

(** ** The builder *)

Module BuilderFacts.
Import PathCodec Runtime Registry Builder PathFacts RegistryFacts.

(** *** Relations that every step of the code respects *)

Section Preserved.
Context (R : Store -> Store -> Prop).
Hypothesis R_refl : forall st, R st st.
Hypothesis R_trans : forall st1 st2 st3, R st1 st2 -> R st2 st3 -> R st1 st3.

Lemma preserves_ret {A} (a : A) : preserves R (ret a).
Proof. intros st. apply R_refl. Qed.

Lemma preserves_throw {A} e : preserves R (@throw A e).
Proof. intros st. apply R_refl. Qed.

Lemma preserves_bind {A B} (c : M A) (k : A -> M B) :
  preserves R c -> (forall a, preserves R (k a)) -> preserves R (bind c k).
Proof.
  intros Hc Hk st. unfold bind. specialize (Hc st).
  destruct (c st) as [[a|e] st1]; simpl in *; [|done].
  eapply R_trans; [done|]. apply Hk.
Qed.

Lemma preserves_run_hook c : preserves R (run_hook c).
Proof. destruct c; [apply preserves_ret|apply preserves_throw]. Qed.

Lemma preserves_get_requestSpan : preserves R get_requestSpan.
Proof. intros st. apply R_refl. Qed.

Lemma preserves_getSpanByPath context p : preserves R (getSpanByPath context p).
Proof. intros st. rewrite getSpanByPath_pure. apply R_refl. Qed.

Hypothesis R_span_end : forall r, preserves R (span_end r).
Hypothesis R_span_addLink : forall r l, preserves R (span_addLink r l).
Hypothesis R_new_span : forall s st, R st (write_spans (spans st ++ [s]) st).

Lemma preserves_startRootSpan {A} options (fn : SpanRef -> M A) :
  (forall r, preserves R (fn r)) -> preserves R (startRootSpan options fn).
Proof.
  intros Hfn st. unfold startRootSpan. eapply R_trans; [apply R_new_span|]. apply Hfn.
Qed.

Lemma preserves_call_requestFinish f : preserves R (call_requestFinish f).
Proof. destruct f. apply R_span_end. Qed.

Lemma preserves_call_fieldFinish f error result :
  preserves R (call_fieldFinish f error result).
Proof.
  destruct f as [this span]. simpl. apply preserves_bind; [|intros _; apply R_span_end].
  destruct (onFieldResolveFinish this); [apply preserves_run_hook|apply preserves_ret].
Qed.

Section Visit.
Context (context : loc) (info : Info).
Hypothesis R_addContextHelpers : preserves R (addContextHelpers context).
Hypothesis R_addSpan : forall span, preserves R (addSpan context span (path info)).

Lemma preserves_willResolveField this source args :
  preserves R (willResolveField this source args context info).
Proof.
  unfold willResolveField.
  apply preserves_bind; [apply preserves_get_requestSpan|]. intros requestSpan.
  apply preserves_bind.
  { destruct (negb (truthy requestSpan)); [apply preserves_ret|].
    destruct (negb (shouldTraceFieldResolver _ _ _ _ _)); [apply preserves_ret|].
    destruct (path_prev info); [|apply preserves_ret].
    apply preserves_bind; [apply preserves_getSpanByPath|]. intros. apply preserves_ret. }
  intros [|]; [apply preserves_ret|].
  apply preserves_bind; [apply R_addContextHelpers|]. intros _.
  apply preserves_bind.
  { destruct (path_prev info); [apply preserves_getSpanByPath|apply preserves_ret]. }
  intros parentSpan.
  apply preserves_bind.
  { apply preserves_startRootSpan. intros r.
    apply preserves_bind; [|intros; apply preserves_ret].
    destruct parentSpan; [apply R_span_addLink|apply preserves_ret]. }
  intros span.
  apply preserves_bind; [apply R_addSpan|]. intros _.
  apply preserves_bind; [|intros; apply preserves_ret].
  destruct (onFieldResolve this); [apply preserves_run_hook|apply preserves_ret].
Qed.
End Visit.
End Preserved.

(** No event changes [requestSpan]. *)
Lemma step_requestSpan this ev st : requestSpan (step this ev st) = requestSpan st.
Proof.
  assert (Hrefl : forall st, same_requestSpan st st) by done.
  assert (Htrans : forall st1 st2 st3,
    same_requestSpan st1 st2 -> same_requestSpan st2 st3 -> same_requestSpan st1 st3).
  { unfold same_requestSpan. congruence. }
  destruct ev as [source args context info|f error result|f]; simpl.
  - apply (preserves_willResolveField same_requestSpan); try done.
    + intros st'. apply addContextHelpers_tracer.
    + intros span st'. apply addSpan_tracer.
  - by apply (preserves_call_fieldFinish same_requestSpan).
  - by apply (preserves_call_requestFinish same_requestSpan).
Qed.

Lemma run_requestSpan this evs st : requestSpan (run this evs st) = requestSpan st.
Proof.
  revert st. induction evs as [|ev evs IH]; intros st; simpl; [done|].
  unfold run in *. simpl. by rewrite IH, step_requestSpan.
Qed.

(** No event removes a span or reopens one. *)
Lemma spans_kept_refl st : spans_kept st st.
Proof. intros r s H. eauto. Qed.

Lemma spans_kept_trans st1 st2 st3 :
  spans_kept st1 st2 -> spans_kept st2 st3 -> spans_kept st1 st3.
Proof.
  intros H12 H23 r s H. destruct (H12 r s H) as (s2 & H2 & He2).
  destruct (H23 r s2 H2) as (s3 & H3 & He3). eauto.
Qed.

Lemma spans_kept_same st st' : spans st' = spans st -> spans_kept st st'.
Proof. intros Heq r s H. rewrite Heq. eauto. Qed.

Lemma spans_kept_alter f r st :
  (forall s, ended s = true -> ended (f s) = true) ->
  spans_kept st (write_spans (alter f r (spans st)) st).
Proof.
  intros Hf r' s H. simpl. destruct (decide (r = r')) as [<-|Hne].
  - exists (f s). split; [|by apply Hf].
    by rewrite list_lookup_alter_eq, H.
  - exists s. split; [|done]. by rewrite list_lookup_alter_ne.
Qed.

Lemma spans_kept_new s st : spans_kept st (write_spans (spans st ++ [s]) st).
Proof.
  intros r s0 H. exists s0. split; [|done]. simpl. apply lookup_app_l_Some. done.
Qed.

Lemma step_spans_kept this ev st : spans_kept st (step this ev st).
Proof.
  pose proof spans_kept_refl as Hrefl. pose proof spans_kept_trans as Htrans.
  assert (Hend : forall r, preserves spans_kept (span_end r)).
  { intros r st'. by apply spans_kept_alter. }
  assert (Hlink : forall r l, preserves spans_kept (span_addLink r l)).
  { intros r l st'. by apply spans_kept_alter. }
  destruct ev as [source args context info|f error result|f]; simpl.
  - apply (preserves_willResolveField spans_kept); try done.
    + apply spans_kept_new.
    + intros st'. apply spans_kept_same, addContextHelpers_tracer.
    + intros span st'. apply spans_kept_same, addSpan_tracer.
  - by apply (preserves_call_fieldFinish spans_kept).
  - by apply (preserves_call_requestFinish spans_kept).
Qed.

Lemma run_spans_kept this evs st : spans_kept st (run this evs st).
Proof.
  revert st. induction evs as [|ev evs IH]; intros st; [apply spans_kept_refl|].
  eapply spans_kept_trans; [apply (step_spans_kept this ev)|]. apply IH.
Qed.

Lemma run_app this evs1 evs2 st :
  run this (evs1 ++ evs2) st = run this evs2 (run this evs1 st).
Proof. unfold run. by rewrite foldl_app. Qed.


(** *** When [willResolveField] leaves the field untraced *)

Lemma willResolveField_no_requestSpan this source args context info st :
  requestSpan st = None ->
  willResolveField this source args context info st = (Return (info, None), st).
Proof.
  intros H. unfold willResolveField, bind, get_requestSpan. by rewrite H.
Qed.

Lemma willResolveField_refused this source args context info st :
  shouldTraceFieldResolver this source args context info = false ->
  willResolveField this source args context info st = (Return (info, None), st).
Proof.
  intros H. unfold willResolveField, bind, get_requestSpan. rewrite H.
  by destruct (requestSpan st).
Qed.

Lemma willResolveField_parent_unregistered this source args context info st p :
  path_prev info = Some p ->
  registered st context p = None ->
  exists r,
    willResolveField this source args context info st = (r, st) /\
    (r = Return (info, None) \/ exists e, r = Throw e).
Proof.
  intros Hp Hreg. unfold willResolveField, bind, get_requestSpan. rewrite Hp.
  destruct (requestSpan st) as [root|]; simpl; [|eauto].
  destruct (shouldTraceFieldResolver _ _ _ _ _); simpl; [|eauto].
  unfold registered in Hreg.
  destruct (getSpanByPath_fn (object_at st context)) eqn:Hfn.
  - destruct (SPANS (object_at st context)) as [m|] eqn:Hm; simpl in Hreg.
    + rewrite (getSpanByPath_attached _ _ _ m) by done. rewrite Hreg. simpl. eauto.
    + unfold getSpanByPath, getSpanByPath_closure, bind, deref. simpl.
      rewrite Hfn, Hm. simpl. eauto.
  - rewrite getSpanByPath_missing by done. eauto.
Qed.

(** A field that gets a closure back passed all three tests of the guard. *)
Lemma willResolveField_grows this source args context info :
  preserves (grows (eq (buildPath (path info))))
    (willResolveField this source args context info).
Proof.
  apply preserves_willResolveField.
  - apply grows_refl.
  - apply grows_trans.
  - intros r l st. by apply grows_same_objects.
  - intros s st. by apply grows_same_objects.
  - apply addContextHelpers_grows.
  - intros span. apply addSpan_grows.
Qed.

(** *** Suppression below a refused field *)

Lemma under_cases n p :
  under n p -> path_keys p = path_keys n \/ below n p.
Proof.
  intros [[|k suffix] H]; [left; by rewrite app_nil_r in H|right].
  by exists (k :: suffix).
Qed.

Lemma wf_path_prev p q : prev p = Some q -> wf_path p = true -> wf_path q = true.
Proof.
  unfold wf_path. destruct p as [[q'|] k o]; simpl; [|done]. intros [= ->].
  rewrite forallb_app. by intros [? _]%andb_prop.
Qed.

Lemma path_keys_last p : last (path_keys p) = Some (key p).
Proof.
  destruct p as [[q|] k o]; simpl; [|done]. by rewrite last_snoc.
Qed.

(** Below a field node, the node [getSpanByPath] strips to is still in the
    subtree. *)
Lemma below_parent n m :
  isArrayPath n = false -> below n m ->
  exists p, prev m = Some p /\
    exists q, (if isArrayPath p then prev p else Some p) = Some q /\ under n q /\
      (wf_path m = true -> wf_path q = true).
Proof.
  intros Hn (suffix & Hne & Hm).
  destruct m as [[p|] k o]; simpl in *.
  - exists p. split; [done|].
    assert (Hp : under n p).
    { destruct suffix as [|k' suffix _] using rev_ind; [done|].
      rewrite app_assoc in Hm. apply app_inj_tail in Hm as [Hm _]. by exists suffix. }
    assert (Hwp : wf_path {| prev := Some p; key := k; oid := o |} = true -> wf_path p = true).
    { by apply wf_path_prev. }
    destruct (isArrayPath p) eqn:Harr; [|eauto].
    destruct (under_cases _ _ Hp) as [Heq|(suffix' & Hne' & Hp')].
    + exfalso. apply (f_equal last) in Heq. rewrite !path_keys_last in Heq.
      unfold isArrayPath in *. injection Heq as Heq. rewrite Heq in Harr. congruence.
    + destruct p as [[q|] k' o']; simpl in *.
      * exists q. split; [done|]. split.
        -- destruct suffix' as [|k'' suffix' _] using rev_ind; [done|].
           rewrite app_assoc in Hp'. apply app_inj_tail in Hp' as [Hp' _]. by exists suffix'.
        -- intros Hw. apply Hwp in Hw. by apply (wf_path_prev _ q) in Hw.
      * exfalso. destruct (path_keys n) as [|k0 l] eqn:Hk; [by apply path_keys_nonempty in Hk|].
        destruct l, suffix'; simplify_list_eq; done.
  - exfalso. destruct (path_keys n) as [|k0 l] eqn:Hk; [by apply path_keys_nonempty in Hk|].
    destruct l, suffix; simplify_list_eq; done.
Qed.


Lemma finish_objects this ev st :
  ~ is_visit ev -> objects (step this ev st) = objects st.
Proof.
  set (R := fun st st' : Store => objects st' = objects st).
  assert (Htrans : forall st1 st2 st3, R st1 st2 -> R st2 st3 -> R st1 st3).
  { unfold R. congruence. }
  destruct ev as [source args context info|f error result|f]; simpl; [done|..]; intros _.
  - by apply (preserves_call_fieldFinish R).
  - by apply (preserves_call_requestFinish R).
Qed.

(** In a clear registry the parent of a node below [n] is not found. *)
Lemma registry_clear_unregistered n st context info m :
  isArrayPath n = false -> registry_clear n st ->
  path info = Some m -> wf_path m = true -> below n m ->
  exists p, path_prev info = Some p /\ registered st context p = None.
Proof.
  intros Hn Hclear Hpath Hwf Hbelow.
  destruct (below_parent n m Hn Hbelow) as (p & Hp & q & Hq & Hunder & Hwq).
  exists p. split; [unfold path_prev; by rewrite Hpath|].
  unfold registered, lookup_key. rewrite Hq.
  destruct (SPANS (object_at st context)) as [reg|] eqn:Hreg; simpl; [|done].
  eapply Hclear; eauto.
Qed.

Lemma registry_clear_step this n ev st :
  isArrayPath n = false ->
  wf_event ev -> refused_at this n ev ->
  registry_clear n st -> registry_clear n (step this ev st).
Proof.
  intros Hn Hwf Href Hclear.
  destruct ev as [source args context info|f error result|f].
  2,3: intros obj m p; unfold object_at; rewrite finish_objects by (by intros []);
    apply Hclear.
  simpl in *. intros obj m' p Hm' Hunder Hwp.
  destruct (m' !! buildPath (Some p)) as [s|] eqn:Hk; [exfalso|done].
  destruct (willResolveField_grows this source args context info st obj m'
              (buildPath (Some p)) Hm') as [Hnew|(m & Hm & [s' Hs'])]; [by eexists| |].
  2: { by rewrite (Hclear obj m p Hm Hunder Hwp) in Hs'. }
  apply buildPath_inj in Hnew; [|done..]. simpl in Hnew.
  destruct (path info) as [q|] eqn:Hpath; simpl in *;
    [|symmetry in Hnew; by apply path_keys_nonempty in Hnew].
  assert (Hq : under n q).
  { destruct Hunder as [suffix Hs]. exists suffix. congruence. }
  assert (Hsame : (willResolveField this source args context info st).2 = st).
  { destruct (under_cases _ _ Hq) as [Heq|Hbelow].
    - rewrite willResolveField_refused; [done|]. by apply Href.
    - destruct (registry_clear_unregistered n st context info q)
        as (pp & Hpp & Hreg); [done..|].
      destruct (willResolveField_parent_unregistered this source args context info st pp)
        as (r & -> & _); done. }
  rewrite Hsame in Hm'. by rewrite (Hclear obj m' p Hm' Hunder Hwp) in Hk.
Qed.

Lemma registry_clear_run this n evs st :
  isArrayPath n = false ->
  Forall wf_event evs -> Forall (refused_at this n) evs ->
  registry_clear n st -> registry_clear n (run this evs st).
Proof.
  intros Hn Hwf. revert st. induction Hwf as [|ev evs Hev _ IH]; intros st Href Hclear.
  - done.
  - apply Forall_cons in Href as [Hr Href]. apply (IH (step this ev st)); [done|].
    by apply registry_clear_step.
Qed.

Lemma registry_clear_fresh n st :
  (forall obj, SPANS (object_at st obj) = None \/ SPANS (object_at st obj) = Some ∅) ->
  registry_clear n st.
Proof.
  intros H obj m p Hm _ _. destruct (H obj) as [Hn|Hn]; rewrite Hn in Hm; [done|].
  injection Hm as <-. apply lookup_empty.
Qed.


(** *** When [willResolveField] returns a closure *)

Lemma bind_Return {A B} (c : M A) (k : A -> M B) st b st' :
  bind c k st = (Return b, st') ->
  exists a st1, c st = (Return a, st1) /\ k a st1 = (Return b, st').
Proof.
  unfold bind. destruct (c st) as [[a|e] st1]; [eauto|]. intros H. inversion H.
Qed.

Lemma alter_new_span f (l : list Span) s : alter f (length l) (l ++ [s]) = l ++ [f s].
Proof. by rewrite alter_app_r_alt, Nat.sub_diag by lia. Qed.

Lemma willResolveField_traced this source args context info st info' f st' :
  willResolveField this source args context info st = (Return (info', Some f), st') ->
  let span := length (spans st) in
  f = fieldFinish this span /\
  info' = expose info span /\
  requestSpan st' = requestSpan st /\
  exists parentSpan, spans st' = spans st ++ [field_span info parentSpan].
Proof.
  intros H. unfold willResolveField in H.
  apply bind_Return in H as (rs & st1 & H1 & H). injection H1 as <- <-.
  apply bind_Return in H as (skip & st2 & H2 & H).
  assert (st2 = st) as ->.
  { destruct (negb (truthy (requestSpan st))); [by injection H2|].
    destruct (negb (shouldTraceFieldResolver _ _ _ _ _)); [by injection H2|].
    destruct (path_prev info); [|by injection H2].
    apply bind_Return in H2 as (parent & st3 & H3 & H4). injection H4 as _ <-.
    apply (f_equal snd) in H3. by rewrite getSpanByPath_pure in H3. }
  destruct skip; [inversion H|].
  apply bind_Return in H as (obj & st3 & H3 & H).
  apply (f_equal snd) in H3. simpl in H3.
  destruct (addContextHelpers_tracer context st) as [Hs3 Hr3]. rewrite H3 in Hs3, Hr3.
  apply bind_Return in H as (parentSpan & st4 & H4 & H).
  assert (st4 = st3) as ->.
  { destruct (path_prev info); [|by injection H4].
    apply (f_equal snd) in H4. by rewrite getSpanByPath_pure in H4. }
  apply bind_Return in H as (span0 & st5 & H5 & H).
  unfold startRootSpan in H5. apply bind_Return in H5 as ([] & st6 & H6 & H7).
  injection H7 as <- <-.
  assert (spans st6 = spans st ++ [field_span info parentSpan]
          /\ requestSpan st6 = requestSpan st /\ objects st6 = objects st3) as (Hs6 & Hr6 & Ho6).
  { destruct parentSpan as [parent|]; injection H6 as <-; simpl; rewrite ?Hs3, ?Hr3;
      [|done]. by rewrite alter_new_span. }
  apply bind_Return in H as ([] & st7 & H7 & H).
  apply (f_equal snd) in H7. simpl in H7.
  destruct (addSpan_tracer context (length (spans st3)) (path info) st6) as [Hs7 Hr7].
  rewrite H7 in Hs7, Hr7.
  apply bind_Return in H as ([] & st8 & H8 & H).
  assert (st8 = st7) as ->.
  { destruct (onFieldResolve this) as [hook|]; [|by injection H8].
    destruct (hook _ _ _ _); [by injection H8|inversion H8]. }
  injection H as <- <- <-. rewrite Hs3. repeat split; [congruence|].
  exists parentSpan. congruence.
Qed.


Lemma object_at_write_spans l st obj : object_at (write_spans l st) obj = object_at st obj.
Proof. reflexivity. Qed.

(** A top-level field that passes the first two tests of the guard gets a
    span under the request span. *)
Lemma willResolveField_top_level this source args context info st root :
  requestSpan st = Some root ->
  shouldTraceFieldResolver this source args context info = true ->
  path_prev info = None ->
  coherent (object_at st context) = true ->
  spans (willResolveField this source args context info st).2
  = spans st ++ [field_span info (Some root)].
Proof.
  intros Hreq Hpred Hprev Hc.
  unfold willResolveField, bind at 1, get_requestSpan. rewrite Hreq, Hpred, Hprev. simpl.
  unfold bind at 1, ret at 1. simpl. unfold bind at 1.
  assert (exists st1 m, addContextHelpers context st = (Return context, st1) /\
            spans st1 = spans st /\
            object_at st1 context
            = {| getSpanByPath_fn := true; addSpan_fn := true; SPANS := Some m |})
    as (st1 & m & -> & Hs1 & Ho1).
  { unfold coherent in Hc.
    destruct (object_at st context) as [g a [m|]] eqn:Ho; simpl in Hc.
    - apply andb_prop in Hc as [-> ->]. exists st, m.
      split; [|done]. apply addContextHelpers_attached. by rewrite Ho.
    - apply andb_prop in Hc as [->%negb_true_iff ->%negb_true_iff].
      eexists _, ∅. split; [by apply addContextHelpers_plain|].
      split; [done|]. by rewrite object_at_write, decide_True. }
  unfold bind at 1, ret at 1. unfold bind at 1, startRootSpan, span_addLink, update_span.
  unfold bind at 1, ret at 1. unfold bind at 1.
  rewrite (addSpan_attached _ _ _ _ m) by (by rewrite !object_at_write_spans, Ho1).
  simpl. rewrite alter_new_span, Hs1. unfold bind.
  destruct (onFieldResolve this) as [hook|]; [destruct (hook _ _ _ _)|]; done.
Qed.

Lemma requestDidStart_traced this infos st fin st1 :
  requestDidStart this infos st = (Return (Some fin), st1) ->
  let root := length (spans st) in
  fin = requestFinish root /\
  requestSpan st1 = Some root /\
  objects st1 = objects st /\
  exists s, spans st1 = spans st ++ [s] /\ name s = "request" /\ ended s = false.
Proof.
  unfold requestDidStart. destruct (negb (shouldTraceRequest this infos)); [intros H; inversion H|].
  intros H. apply bind_Return in H as (root & st2 & H2 & H).
  unfold startRootSpan, ret in H2. injection H2 as <- <-.
  apply bind_Return in H as ([] & st3 & H3 & H).
  assert (st3 = write_spans (spans st ++ [new_span
            {| to_name := "request"; to_kind := SERVER;
               to_spanContext :=
                 match request infos with
                 | Some {| headers := Some _ |} =>
                     extract (tracer this)
                       (fun name => match request infos with
                                    | Some {| headers := Some h |} => h !! name
                                    | _ => None
                                    end)
                 | _ => None
                 end |}]) st) as ->.
  { destruct (onRequestResolve this _ infos); [by injection H3|inversion H3]. }
  apply bind_Return in H as ([] & st4 & H4 & H). injection H4 as <-. injection H as <- <-.
  simpl. repeat split; eauto.
Qed.

End BuilderFacts.

(** ** The scenarios of the integration tests *)

Module Scenarios.
Import PathCodec Runtime Registry Builder Examples.

(** [{ a { one } }]: the request span and two field spans, all ended. *)
Example nesting :
  (fun s => (name s, continues s, ended s)) <$> spans (serve plain_extension query_a_one 2)
  = [("request", None, true);
     ("a", Some (OfSpan 0), true);
     ("one", Some (OfSpan 1), true)].
Proof. vm_compute. reflexivity. Qed.

(** The same query when the predicate refuses [a]: the request span only. *)
Example untraced_parent :
  (fun s => (name s, ended s)) <$> spans (serve skipping_a query_a_one 0)
  = [("request", true)].
Proof. vm_compute. reflexivity. Qed.

(** [{ as { one two } }] on three elements: eight spans, the fields of every
    element under the span of [as]. *)
Example arrays :
  (fun s => (name s, continues s)) <$> spans (serve plain_extension query_as 7)
  = [("request", None);
     ("as", Some (OfSpan 0));
     ("one", Some (OfSpan 1)); ("two", Some (OfSpan 1));
     ("one", Some (OfSpan 1)); ("two", Some (OfSpan 1));
     ("one", Some (OfSpan 1)); ("two", Some (OfSpan 1))].
Proof. vm_compute. reflexivity. Qed.

(** The span name: the alias, else the field name, else ["field"]. *)
Example names :
  getFieldName {| fieldName := Some "a"; fieldNodes := Some [{| alias := Some "b" |}];
                  path := None; span := None |} = "b" /\
  getFieldName {| fieldName := Some "myField"; fieldNodes := None;
                  path := None; span := None |} = "myField" /\
  getFieldName {| fieldName := None; fieldNodes := None; path := None; span := None |}
  = "field".
Proof. repeat split; reflexivity. Qed.

End Scenarios.

(** * The claims *)

Import PathCodec Runtime Registry Builder Examples.
Import PathFacts RegistryFacts BuilderFacts.

(** ** Path keys *)

(** C2, as the documentation states it: the chain a, three, 1, four would
    render as [a.three[1].four].  It does not: [join(".")] puts a dot before
    the bracket as well. *)
Lemma path_key_has_dot_before_bracket :
  buildPath (Some a_three_1_four) <> "a.three[1].four".
Proof. vm_compute. intros H. inversion H. Qed.

(** C2, amended: a named step renders as its key and an indexed step as
    the index in brackets; the path key of a node that has a parent is the
    parent's path key, a dot, and the node's own segment, for indexed steps as
    for named ones, so that the chain a, three, 1, four renders as
    [a.three.[1].four]. *)
Theorem path_key_rendering :
  (forall parent s o, segment {| prev := parent; key := KName s; oid := o |} = Some s) /\
  (forall parent i o,
     segment {| prev := parent; key := KIndex i; oid := o |}
     = Some ("[" +:+ number_to_string i +:+ "]")) /\
  (forall k o,
     buildPath (Some {| prev := None; key := k; oid := o |})
     = element_to_string (segment {| prev := None; key := k; oid := o |})) /\
  (forall q k o,
     buildPath (Some {| prev := Some q; key := k; oid := o |})
     = buildPath (Some q) +:+ "." +:+
       element_to_string (segment {| prev := Some q; key := k; oid := o |})) /\
  buildPath (Some a_three_1_four) = "a.three.[1].four".
Proof.
  split; [done|]. split; [done|]. split; [|split; [|done]].
  - intros k o. by rewrite buildPath_root, segment_key.
  - intros q k o. by rewrite buildPath_child, segment_key.
Qed.

(** C7, as the documentation states it: a missing key would be skipped, so
    that the chain a, (no key) had the path key of the chain a.  It has the
    key [a.] instead. *)
Lemma missing_key_is_not_skipped :
  buildPath (Some node_a_undefined) <> pathKey_skipping (Some node_a_undefined).
Proof. vm_compute. intros H. inversion H. Qed.

(** C7, amended: [buildPath] is a function from chains to strings (it
    returns on every chain and throws on none); the path key of no chain is
    the empty string; two chains with the same keys in the same order have
    the same path key, whatever objects they are made of; a node without a key
    contributes the empty segment, and the dot that separates it from its
    parent is still there. *)
Theorem path_key_total_deterministic :
  buildPath None = "" /\
  (forall p q, chain_keys p = chain_keys q -> buildPath p = buildPath q) /\
  (forall o, buildPath (Some {| prev := None; key := KUndefined; oid := o |}) = "") /\
  (forall q o,
     buildPath (Some {| prev := Some q; key := KUndefined; oid := o |})
     = buildPath (Some q) +:+ ".").
Proof.
  split; [done|]. split; [|split].
  - intros p q H. by rewrite !buildPath_keys, H.
  - intros o. by rewrite buildPath_root.
  - intros q o. rewrite buildPath_child. simpl. by rewrite string_app_nil_r.
Qed.

Lemma path_key_total_deterministic_witness :
  chain_keys (Some node_a_one)
  = chain_keys (Some (named (Some {| prev := None; key := KName "a"; oid := 7 |}) "one")) /\
  buildPath (Some node_a_one)
  = buildPath (Some (named (Some {| prev := None; key := KName "a"; oid := 7 |}) "one")).
Proof.
  split; [reflexivity|].
  apply (proj1 (proj2 path_key_total_deterministic)). reflexivity.
Defined.

(** ** The registry *)

Lemma buildPath_indexed_ne p i :
  key p = KIndex i -> buildPath (Some p) <> buildPath (prev p).
Proof.
  destruct p as [[q|] k o]; simpl; intros ->.
  - rewrite buildPath_child. simpl. intros H. apply (f_equal String.length) in H.
    rewrite !string_app_length in H. simpl in H. lia.
  - rewrite buildPath_root. simpl. rewrite index_segment_cons. done.
Qed.

(** C6: on a context that carries the helpers, [getSpanByPath] of an
    array-indexed node reads the entry under the path key of the node's
    parent, [addSpan] writes under the node's own path key, and that key is
    the parent's key followed by a dot and the index in brackets (so the two
    keys differ). *)
Theorem index_stripping_asymmetry context st m p i span :
  isSpanContext (object_at st context) = true ->
  SPANS (object_at st context) = Some m ->
  key p = KIndex i ->
  getSpanByPath context p st = (Return (m !! buildPath (prev p)), st) /\
  addSpan context span (Some p) st
  = (Return tt,
     write_object context
       {| getSpanByPath_fn := true; addSpan_fn := true;
          SPANS := Some (<[buildPath (Some p) := span]> m) |} st) /\
  buildPath (Some p)
  = match prev p with
    | Some q => buildPath (Some q) +:+ "." +:+ "[" +:+ number_to_string i +:+ "]"
    | None => "[" +:+ number_to_string i +:+ "]"
    end /\
  buildPath (Some p) <> buildPath (prev p).
Proof.
  intros [Hg Ha]%andb_prop Hm Hk. split; [|split; [|split]].
  - rewrite (getSpanByPath_attached _ _ _ m) by done.
    unfold lookup_key, isArrayPath. by rewrite Hk.
  - rewrite (addSpan_attached _ _ _ _ m) by done. by rewrite Hg.
  - destruct p as [[q|] k o]; simpl in *; subst k.
    + by rewrite buildPath_child.
    + by rewrite buildPath_root.
  - by apply (buildPath_indexed_ne p i).
Qed.

Lemma index_stripping_asymmetry_witness :
  getSpanByPath 0 node_as_0 attached_store = (Return None, attached_store) /\
  buildPath (Some node_as_0) = "as.[0]".
Proof.
  destruct (index_stripping_asymmetry 0 attached_store ∅ node_as_0 0%N 5)
    as (Hget & _ & Hkey & _); [reflexivity..|].
  split; [exact Hget|exact Hkey].
Defined.

(** A series of writes to other keys keeps an entry. *)
Lemma run_writes_keeps obj k s writes st :
  Forall (other_key obj k) writes ->
  getSpanByPath_fn (object_at st obj) = true ->
  (exists m, SPANS (object_at st obj) = Some m /\ m !! k = Some s) ->
  getSpanByPath_fn (object_at (run_writes writes st) obj) = true /\
  exists m, SPANS (object_at (run_writes writes st) obj) = Some m /\ m !! k = Some s.
Proof.
  intros Hw. revert st. induction Hw as [|[[obj' s'] p'] writes Hother _ IH];
    intros st Hg (m & Hm & Hk); [eauto|].
  apply IH; clear IH; simpl; unfold other_key in Hother; simpl in Hother.
  - unfold_registry. case_object st obj'; try done.
    all: case_decide as Heq; [|done]; subst obj'.
    all: by rewrite Ho in Hg.
  - unfold_registry. case_object st obj'; eauto.
    all: case_decide as Heq; [|eauto]; subst obj'.
    all: rewrite Ho in Hm; simpl in Hm; injection Hm as ->.
    all: eexists; split; [done|]; rewrite lookup_insert_ne; auto.
Qed.

(** C1, as the documentation states it, at an array-indexed node: after
    [addSpan] of span [5] for the node as, 0 on a registry that was empty,
    [getSpanByPath] of that node finds nothing. *)
Lemma roundtrip_fails_at_indexed_node :
  (getSpanByPath 0 node_as_0 (addSpan 0 5 (Some node_as_0) attached_store).2).1
  <> Return (Some 5).
Proof. vm_compute. intros H. inversion H. Qed.

(** C1, amended: on a context that carries the helpers, for a node that is
    not array-indexed, [getSpanByPath] of the node after [addSpan] of the
    node, and after any further writes that are to other objects or other
    keys, returns the span that was added; for an array-indexed node it
    returns what the registry held under the key of the node's parent before
    the write. *)
Theorem registry_roundtrip context st m n s :
  isSpanContext (object_at st context) = true ->
  SPANS (object_at st context) = Some m ->
  let st1 := (addSpan context s (Some n) st).2 in
  (isArrayPath n = false ->
   forall writes, Forall (other_key context (buildPath (Some n))) writes ->
     let st2 := run_writes writes st1 in
     getSpanByPath context n st2 = (Return (Some s), st2)) /\
  (isArrayPath n = true ->
   getSpanByPath context n st1 = (Return (m !! buildPath (prev n)), st1)).
Proof.
  intros [Hg Ha]%andb_prop Hm st1.
  assert (Hst1 : st1 = write_object context
            {| getSpanByPath_fn := true; addSpan_fn := true;
               SPANS := Some (<[buildPath (Some n) := s]> m) |} st).
  { unfold st1. rewrite (addSpan_attached _ _ _ _ m) by done. by rewrite Hg. }
  split.
  - intros Hn writes Hw st2.
    destruct (run_writes_keeps context (buildPath (Some n)) s writes st1 Hw)
      as (Hg2 & m2 & Hm2 & Hk2).
    { by rewrite Hst1, object_at_write, decide_True. }
    { rewrite Hst1, object_at_write, decide_True by done. simpl.
      eexists. split; [done|]. apply lookup_insert_eq. }
    rewrite (getSpanByPath_attached _ _ _ m2) by done.
    unfold lookup_key. by rewrite Hn, Hk2.
  - intros Hn. rewrite (getSpanByPath_attached _ _ _ (<[buildPath (Some n) := s]> m)).
    + unfold lookup_key. rewrite Hn. rewrite lookup_insert_ne; [done|].
      unfold isArrayPath in Hn. destruct (key n) as [| |i] eqn:Hk; try done.
      by apply (buildPath_indexed_ne n i).
    + by rewrite Hst1, object_at_write, decide_True.
    + by rewrite Hst1, object_at_write, decide_True.
Qed.

Lemma registry_roundtrip_witness :
  let st1 := (addSpan 0 5 (Some node_a_one) attached_store).2 in
  let st2 := run_writes [(0, 6, Some node_a); (1, 7, Some node_a_one)] st1 in
  getSpanByPath 0 node_a_one st2 = (Return (Some 5), st2).
Proof.
  intros st1 st2.
  apply (proj1 (registry_roundtrip 0 attached_store ∅ node_a_one 5 eq_refl eq_refl));
    [reflexivity|].
  apply Forall_cons. split; [intros _; vm_compute; intros H; inversion H|].
  apply Forall_cons. split; [intros H; inversion H|]. apply Forall_nil_2.
Defined.

(** C8: on a context object that is plain or already carries the helpers,
    [addContextHelpers] returns the object it was given; a second call
    returns the same object and changes nothing; and a span added between two
    calls is still found after the second one. *)
Theorem attachment_idempotent obj st :
  coherent (object_at st obj) = true ->
  exists st1,
    addContextHelpers obj st = (Return obj, st1) /\
    addContextHelpers obj st1 = (Return obj, st1) /\
    forall span n, isArrayPath n = false ->
      exists st2,
        addSpan obj span (Some n) st1 = (Return tt, st2) /\
        addContextHelpers obj st2 = (Return obj, st2) /\
        getSpanByPath obj n st2 = (Return (Some span), st2).
Proof.
  intros Hc.
  assert (exists st1 m, addContextHelpers obj st = (Return obj, st1) /\
            object_at st1 obj
            = {| getSpanByPath_fn := true; addSpan_fn := true; SPANS := Some m |})
    as (st1 & m & H1 & Ho1).
  { unfold coherent in Hc. destruct (object_at st obj) as [g a [m|]] eqn:Ho; simpl in Hc.
    - apply andb_prop in Hc as [-> ->]. exists st, m.
      split; [|done]. apply addContextHelpers_attached. by rewrite Ho.
    - apply andb_prop in Hc as [->%negb_true_iff ->%negb_true_iff].
      eexists _, ∅. split; [by apply addContextHelpers_plain|].
      by rewrite object_at_write, decide_True. }
  exists st1. split; [done|]. split.
  { apply addContextHelpers_attached. by rewrite Ho1. }
  intros span n Hn. eexists. split; [|split].
  - rewrite (addSpan_attached _ _ _ _ m); [done|by rewrite Ho1..].
  - apply addContextHelpers_attached.
    rewrite object_at_write, decide_True by done. by rewrite Ho1.
  - rewrite (getSpanByPath_attached _ _ _ (<[buildPath (Some n) := span]> m)).
    + unfold lookup_key. by rewrite Hn, lookup_insert_eq.
    + by rewrite object_at_write, decide_True, Ho1.
    + by rewrite object_at_write, decide_True.
Qed.

Lemma attachment_idempotent_witness :
  exists st1,
    addContextHelpers 0 empty_store = (Return 0, st1) /\
    addContextHelpers 0 st1 = (Return 0, st1) /\
    forall span n, isArrayPath n = false ->
      exists st2,
        addSpan 0 span (Some n) st1 = (Return tt, st2) /\
        addContextHelpers 0 st2 = (Return 0, st2) /\
        getSpanByPath 0 n st2 = (Return (Some span), st2).
Proof. apply (attachment_idempotent 0 empty_store). reflexivity. Defined.

(** ** The builder *)

(** C4: let [n] be a field node that the field predicate refuses whenever
    the host announces it, let the paths the host announces be made of
    response names and list indices, and let the registries hold no key of
    the subtree at [n] when the request starts (as on fresh context objects).
    Then, whatever the host does before, announcing a field [m] below [n]
    changes nothing (no span is started, nothing is registered) and returns
    no closure: the call returns [undefined] or throws. *)
Theorem suppression_propagates this n evs st0 source args context info m :
  isArrayPath n = false ->
  Forall wf_event evs -> Forall (refused_at this n) evs ->
  registry_clear n st0 ->
  path info = Some m -> wf_path m = true -> below n m ->
  let st := run this evs st0 in
  exists r,
    willResolveField this source args context info st = (r, st) /\
    (r = Return (info, None) \/ exists e, r = Throw e).
Proof.
  intros Hn Hwf Href Hclear Hpath Hwm Hbelow st.
  assert (Hst : registry_clear n st) by by apply registry_clear_run.
  destruct (registry_clear_unregistered n st context info m) as (p & Hp & Hreg); [done..|].
  by apply (willResolveField_parent_unregistered _ _ _ _ _ _ p).
Qed.

Lemma suppression_propagates_witness :
  let st :=
    run skipping_a
      [WillResolveField VUndefined VUndefined 0 (field "a" node_a);
       WillResolveField VUndefined VUndefined 0 (field "as" node_as)]
      request_open in
  exists r,
    willResolveField skipping_a VUndefined VUndefined 0 (field "one" node_a_one) st = (r, st) /\
    (r = Return (field "one" node_a_one, None) \/ exists e, r = Throw e).
Proof.
  apply (suppression_propagates skipping_a node_a _ request_open
           VUndefined VUndefined 0 (field "one" node_a_one) node_a_one).
  - reflexivity.
  - repeat (apply Forall_cons; split; [reflexivity|]). apply Forall_nil_2.
  - apply Forall_cons. split; [intros _; reflexivity|].
    apply Forall_cons. split; [intros H; inversion H|]. apply Forall_nil_2.
  - apply registry_clear_fresh. intros obj. left. reflexivity.
  - reflexivity.
  - reflexivity.
  - exists [KName "one"]. split; [intros H; inversion H|reflexivity].
Defined.





(** C3, as the documentation states it, with a hook that throws: the field
    a is traced (span [1], under the request span), its closure is called,
    the hook throws, the exception leaves the closure, and the span has not
    ended. *)
Lemma throwing_hook_leaves_span_open :
  let info := field "a" node_a in
  exists st1,
    willResolveField throwing_extension VUndefined VUndefined 0 info request_open
    = (Return (expose info 1, Some (fieldFinish throwing_extension 1)), st1) /\
    call_fieldFinish (fieldFinish throwing_extension 1) VNull (VOpaque 0) st1
    = (Throw (Thrown (VOpaque 1)), st1) /\
    ended <$> spans st1 !! 1 = Some false.
Proof. eexists. split; [vm_compute; reflexivity|]. split; reflexivity. Qed.

(** C3, amended: for a field that was traced, at any later point of the
    request, calling the returned closure ends the field's span when no
    [onFieldResolveFinish] hook is configured or the hook returns; when the
    hook throws, the closure throws what the hook threw and does nothing to
    the span. *)
Theorem field_finish_closes_span this source args context info st info' f st1
    evs error result :
  willResolveField this source args context info st = (Return (info', Some f), st1) ->
  let span := length (spans st) in
  let st2 := run this evs st1 in
  match finish_hook_completion this error result span with
  | Normal =>
      exists st3,
        call_fieldFinish f error result st2 = (Return tt, st3) /\
        exists s, spans st3 !! span = Some s /\ ended s = true
  | Abrupt thrown =>
      call_fieldFinish f error result st2 = (Throw (Thrown thrown), st2)
  end.
Proof.
  intros H span st2.
  apply willResolveField_traced in H as (-> & _ & _ & parentSpan & Hs1).
  destruct (run_spans_kept this evs st1 span (field_span info parentSpan))
    as (s2 & Hs2 & _).
  { rewrite Hs1. by apply list_lookup_middle. }
  fold st2 in Hs2. fold span.
  unfold finish_hook_completion, call_fieldFinish, bind.
  destruct (onFieldResolveFinish this) as [hook|]; simpl.
  - destruct (hook error result span); simpl; [|done].
    eexists. split; [done|]. exists (mark_ended s2). simpl.
    by rewrite list_lookup_alter_eq, Hs2.
  - eexists. split; [done|]. exists (mark_ended s2). simpl.
    by rewrite list_lookup_alter_eq, Hs2.
Qed.

Lemma field_finish_closes_span_witness :
  let info := field "a" node_a in
  let st1 := (willResolveField plain_extension VUndefined VUndefined 0 info request_open).2 in
  exists st3,
    call_fieldFinish (fieldFinish plain_extension 1) VNull (VOpaque 0)
      (run plain_extension [] st1) = (Return tt, st3) /\
    exists s, spans st3 !! 1 = Some s /\ ended s = true.
Proof.
  intros info st1.
  apply (field_finish_closes_span plain_extension VUndefined VUndefined 0 info
           request_open (expose info 1) (fieldFinish plain_extension 1) st1 []
           VNull (VOpaque 0)).
  vm_compute. reflexivity.
Defined.

(** C9, as stated, on an untraced request: the node a, one has a parent and
    the context object is plain, yet the call returns [undefined] and no method
    of the context is invoked. *)
Lemma guard_short_circuits :
  let info := field "one" node_a_one in
  path_prev info = Some node_a /\
  object_at empty_store 0 = plainObject /\
  willResolveField plain_extension VUndefined VUndefined 0 info empty_store
  = (Return (info, None), empty_store).
Proof. split; [|split]; reflexivity. Qed.

(** C9, amended: on a node that has a parent and a context object without
    [getSpanByPath], the call throws a [TypeError] out of the guard, leaving
    everything as it was, exactly when a request span is there and the field
    predicate accepts the node; when there is no request span or the
    predicate refuses, the call returns [undefined]. *)
Theorem guard_needs_helpers this source args context info st p :
  path_prev info = Some p ->
  getSpanByPath_fn (object_at st context) = false ->
  willResolveField this source args context info st
  = (if truthy (requestSpan st) && shouldTraceFieldResolver this source args context info
     then Throw (TypeError "context.getSpanByPath is not a function")
     else Return (info, None),
     st).
Proof.
  intros Hp Hfn. unfold willResolveField, bind, get_requestSpan. rewrite Hp.
  destruct (requestSpan st) as [root|]; simpl; [|done].
  destruct (shouldTraceFieldResolver _ _ _ _ _); simpl; [|done].
  by rewrite getSpanByPath_missing.
Qed.

Lemma guard_needs_helpers_witness :
  willResolveField plain_extension VUndefined VUndefined 0 (field "one" node_a_one) request_open
  = (Throw (TypeError "context.getSpanByPath is not a function"), request_open).
Proof.
  apply (guard_needs_helpers plain_extension VUndefined VUndefined 0
           (field "one" node_a_one) request_open node_a); reflexivity.
Defined.

(** C10: the closure [requestDidStart] returns ends the root span and does
    nothing else.  Once the host has called it, at any later point, the
    [requestSpan] field still holds the root span, which has ended; the first
    test of the guard of [willResolveField] does not stop the call; and a
    top-level field that the predicate accepts gets a span that continues the
    ended root span and is linked to it. *)
Theorem request_span_outlives_request this infos st fin st1 evs1 evs2 :
  requestDidStart this infos st = (Return (Some fin), st1) ->
  let root := length (spans st) in
  let st2 := run this (evs1 ++ [RequestDone fin] ++ evs2) st1 in
  (forall st',
     call_requestFinish fin st'
     = (Return tt, write_spans (alter mark_ended root (spans st')) st')) /\
  requestSpan st2 = Some root /\
  (exists s, spans st2 !! root = Some s /\ ended s = true) /\
  negb (truthy (requestSpan st2)) = false /\
  forall source args context info,
    shouldTraceFieldResolver this source args context info = true ->
    path_prev info = None ->
    coherent (object_at st2 context) = true ->
    spans (willResolveField this source args context info st2).2
    = spans st2 ++ [field_span info (Some root)].
Proof.
  intros H root st2.
  apply requestDidStart_traced in H as (-> & Hreq & _ & s & Hs & _ & _). fold root in Hreq.
  assert (Hreq2 : requestSpan st2 = Some root).
  { unfold st2. by rewrite run_requestSpan. }
  split; [done|]. split; [done|]. split; [|split].
  - unfold st2. rewrite !run_app.
    set (sta := run this evs1 st1).
    destruct (run_spans_kept this evs1 st1 root s) as (sa & Hsa & _).
    { rewrite Hs. by apply list_lookup_middle. }
    fold sta in Hsa.
    destruct (run_spans_kept this evs2 (run this [RequestDone (requestFinish root)] sta)
                root (mark_ended sa)) as (s2 & Hs2 & Hended).
    { simpl. by rewrite list_lookup_alter_eq, Hsa. }
    exists s2. split; [done|]. by apply Hended.
  - by rewrite Hreq2.
  - intros source args context info Hpred Hprev Hc.
    by apply willResolveField_top_level.
Qed.

Lemma request_span_outlives_request_witness :
  let st2 :=
    run plain_extension ([] ++ [RequestDone (requestFinish 0)] ++ [])
      (requestDidStart plain_extension post empty_store).2 in
  requestSpan st2 = Some 0 /\
  (exists s, spans st2 !! 0 = Some s /\ ended s = true) /\
  spans (willResolveField plain_extension VUndefined VUndefined 0 (field "a" node_a) st2).2
  = spans st2 ++ [field_span (field "a" node_a) (Some 0)].
Proof.
  intros st2.
  destruct (request_span_outlives_request plain_extension post empty_store
              (requestFinish 0) (requestDidStart plain_extension post empty_store).2 [] [])
    as (_ & H1 & H2 & _ & H3); [reflexivity|].
  split; [exact H1|]. split; [exact H2|].
  apply H3; reflexivity.
Defined.

(** * Further properties *)

Module OutcomeFacts.
Import PathCodec Runtime Registry Builder Examples Outcome.
Import PathFacts RegistryFacts BuilderFacts.

Lemma write_object_twice obj c1 c2 st :
  write_object obj c2 (write_object obj c1 st) = write_object obj c2 st.
Proof. unfold write_object. simpl. by rewrite insert_insert_eq. Qed.

Lemma write_spans_twice l1 l2 st :
  write_spans l2 (write_spans l1 st) = write_spans l2 st.
Proof. reflexivity. Qed.

Lemma write_object_spans obj c l st :
  write_object obj c (write_spans l st) = write_spans l (write_object obj c st).
Proof. reflexivity. Qed.

(** The traced part of [willResolveField], from [addContextHelpers] on. *)
Lemma traced_eq this source args context info parent st :
  coherent (object_at st context) = true ->
  (match path_prev info with
   | Some p => getSpanByPath_fn (object_at st context) = true /\
               registered st context p = parent
   | None => True
   end) ->
  is_Some parent ->
  bind (addContextHelpers context) (fun _ =>
    bind (match path_prev info with
          | Some p => getSpanByPath context p
          | None => ret parent
          end) (fun parentSpan =>
    bind (startRootSpan
            {| to_name := getFieldName info; to_kind := SERVER;
               to_spanContext := OfSpan <$> parentSpan |}
            (fun span =>
               bind (match parentSpan with
                     | Some parent =>
                         span_addLink span {| link_to := parent; link_type := CHILD_LINKED_SPAN |}
                     | None => ret tt
                     end) (fun _ => ret span))) (fun span =>
    bind (addSpan context span (path info)) (fun _ =>
    bind (match onFieldResolve this with
          | Some hook => run_hook (hook source args context (expose info span))
          | None => ret tt
          end) (fun _ =>
    ret (expose info span, Some (fieldFinish this span))))))) st
  = traced this source args context info parent st.
Proof.
  intros Hc Hparent [par ->].
  assert (exists st1 m, addContextHelpers context st = (Return context, st1) /\
            st1 = write_object context
                    {| getSpanByPath_fn := true; addSpan_fn := true; SPANS := Some m |} st /\
            m = registry_or_empty st context /\
            (getSpanByPath_fn (object_at st context) = true ->
             SPANS (object_at st context) = Some m))
    as (st1 & m & Hach & Hst1 & Hm & Hreg).
  { unfold coherent in Hc. unfold registry_or_empty.
    destruct (object_at st context) as [g a [m|]] eqn:Ho; simpl in Hc.
    - apply andb_prop in Hc as [-> ->]. exists st, m.
      split; [apply addContextHelpers_attached; by rewrite Ho|].
      split; [|done]. unfold write_object. destruct st as [sp objs rs]. simpl. f_equal.
      unfold object_at in Ho. simpl in Ho. symmetry. apply insert_id.
      destruct (objs !! context) as [c|] eqn:Hl; simpl in Ho; [by subst|].
      inversion Ho.
    - apply andb_prop in Hc as [->%negb_true_iff ->%negb_true_iff].
      exists (write_object context withHelpers st), ∅.
      split; [by apply addContextHelpers_plain|]. done. }
  assert (Ho1 : object_at st1 context
                = {| getSpanByPath_fn := true; addSpan_fn := true; SPANS := Some m |}).
  { by rewrite Hst1, object_at_write, decide_True. }
  unfold bind at 1. rewrite Hach.
  unfold bind at 1.
  assert (Hget : (match path_prev info with
                  | Some p => getSpanByPath context p
                  | None => ret (Some par)
                  end) st1 = (Return (Some par), st1)).
  { destruct (path_prev info) as [p|]; [|done]. destruct Hparent as [Hg Hp].
    rewrite (getSpanByPath_attached _ _ _ m) by by rewrite Ho1.
    unfold registered in Hp. rewrite (Hreg Hg) in Hp. simpl in Hp. by rewrite Hp. }
  rewrite Hget.
  unfold bind at 1, startRootSpan, span_addLink, update_span.
  unfold bind at 1, ret at 1. unfold bind at 1.
  rewrite (addSpan_attached _ _ _ _ m) by (by rewrite !object_at_write_spans, Ho1).
  simpl. rewrite alter_new_span, !object_at_write_spans, Ho1, write_spans_twice. simpl.
  unfold traced, traced_store, resolve_hook_completion.
  assert (Hstore :
    write_object context
      {| getSpanByPath_fn := true; addSpan_fn := true;
         SPANS := Some (<[buildPath (path info) := length (spans st1)]> m) |}
      (write_spans (spans st1 ++ [field_span info (Some par)]) st1)
    = write_object context
      {| getSpanByPath_fn := true; addSpan_fn := true;
         SPANS := Some (<[buildPath (path info) := length (spans st)]>
                          (registry_or_empty st context)) |}
      (write_spans (spans st ++ [field_span info (Some par)]) st)).
  { rewrite Hst1, <- Hm. rewrite write_object_spans. simpl.
    by rewrite write_object_twice. }
  assert (Hlen : length (spans st1) = length (spans st)) by by rewrite Hst1.
  unfold bind. rewrite Hlen in *.
  destruct (onFieldResolve this) as [hook|]; simpl.
  - destruct (hook source args context (expose info (length (spans st)))); simpl;
      by rewrite <- Hstore.
  - by rewrite <- Hstore.
Qed.

(** On a context object that is plain or carries the helpers, a call of
    [willResolveField] comes to [willResolveField_outcome]. *)
Lemma willResolveField_is_outcome this source args context info st :
  coherent (object_at st context) = true ->
  willResolveField this source args context info st
  = willResolveField_outcome this source args context info st.
Proof.
  intros Hc. unfold willResolveField_outcome, willResolveField.
  unfold bind at 1, get_requestSpan.
  destruct (requestSpan st) as [root|] eqn:Hreq; [|done].
  cbn [truthy negb].
  destruct (shouldTraceFieldResolver this source args context info); cbn [negb]; [|done].
  destruct (path_prev info) as [p|] eqn:Hp.
  - unfold bind at 1. unfold bind at 1.
    destruct (getSpanByPath_fn (object_at st context)) eqn:Hg.
    + assert (exists m, SPANS (object_at st context) = Some m) as [m Hm].
      { unfold coherent in Hc. destruct (SPANS (object_at st context)); [eauto|].
        by rewrite Hg in Hc. }
      rewrite (getSpanByPath_attached _ _ _ m) by done.
      unfold registered. rewrite Hm. cbn [mbind option_bind].
      destruct (m !! lookup_key p) as [parent|] eqn:Hl; cbn [ret truthy negb]; [|done].
      rewrite <- (traced_eq this source args context info (Some parent) st Hc);
        [by rewrite Hp| |by eexists].
      rewrite Hp. split; [done|]. unfold registered. by rewrite Hm.
    + by rewrite getSpanByPath_missing.
  - unfold bind at 1. cbn [ret].
    rewrite <- (traced_eq this source args context info (Some root) st Hc);
      [by rewrite Hp|by rewrite Hp|by eexists].
Qed.

(** What a call of [requestDidStart] comes to. *)
Lemma requestDidStart_is_outcome this infos st :
  requestDidStart this infos st
  = if shouldTraceRequest this infos then
      let root := length (spans st) in
      let st1 := write_spans (spans st ++ [request_span this infos]) st in
      match onRequestResolve this root infos with
      | Normal => (Return (Some (requestFinish root)), write_requestSpan (Some root) st1)
      | Abrupt thrown => (Throw (Thrown thrown), st1)
      end
    else (Return None, st).
Proof.
  unfold requestDidStart. destruct (shouldTraceRequest this infos); cbn [negb]; [|done].
  unfold bind at 1, startRootSpan, ret at 1. cbv beta iota zeta.
  assert (Hspan :
    new_span {| to_name := "request"; to_kind := SERVER;
                to_spanContext :=
                  match request infos with
                  | Some {| headers := Some _ |} =>
                      extract (tracer this)
                        (fun name => match request infos with
                                     | Some {| headers := Some h |} => h !! name
                                     | _ => None
                                     end)
                  | _ => None
                  end |}
    = request_span this infos).
  { unfold request_span, extracted, new_span. simpl.
    by destruct (request infos) as [[[h|]]|]. }
  rewrite Hspan. unfold bind.
  by destruct (onRequestResolve this (length (spans st)) infos).
Qed.

(** *** What the registry functions leave alone *)

Lemma others_untouched_refl obj st : others_untouched obj st st.
Proof. by intros obj' _. Qed.

Lemma others_untouched_trans obj st1 st2 st3 :
  others_untouched obj st1 st2 -> others_untouched obj st2 st3 ->
  others_untouched obj st1 st3.
Proof. intros H12 H23 obj' Hne. by rewrite H23, H12. Qed.

Lemma others_untouched_write obj c st : others_untouched obj st (write_object obj c st).
Proof. intros obj' Hne. by rewrite object_at_write, decide_False. Qed.

Lemma addContextHelpers_others obj :
  preserves (others_untouched obj) (addContextHelpers obj).
Proof.
  intros st. unfold_registry. case_object st obj; rewrite ?write_object_twice;
    first [apply others_untouched_refl|apply others_untouched_write].
Qed.

Lemma addSpan_others obj span info_path :
  preserves (others_untouched obj) (addSpan obj span info_path).
Proof.
  intros st. unfold_registry. case_object st obj;
    first [apply others_untouched_refl|apply others_untouched_write].
Qed.

Lemma keeps_refl st : keeps st st.
Proof. intros obj m k Hm Hk. eauto. Qed.

Lemma keeps_trans st1 st2 st3 : keeps st1 st2 -> keeps st2 st3 -> keeps st1 st3.
Proof.
  intros H12 H23 obj m k Hm Hk. destruct (H12 obj m k Hm Hk) as (m2 & Hm2 & Hk2). eauto.
Qed.

Lemma keeps_same_objects st st' : objects st' = objects st -> keeps st st'.
Proof.
  intros H obj m k Hm Hk. exists m. split; [|done]. unfold object_at in *. by rewrite H.
Qed.

Lemma keeps_write obj c st :
  (forall m k, SPANS (object_at st obj) = Some m -> is_Some (m !! k) ->
     exists m', SPANS c = Some m' /\ is_Some (m' !! k)) ->
  keeps st (write_object obj c st).
Proof.
  intros H obj' m k Hm Hk. rewrite object_at_write. case_decide as Heq; [|eauto].
  subst obj'. eauto.
Qed.

Lemma addContextHelpers_keeps obj : preserves keeps (addContextHelpers obj).
Proof.
  intros st. unfold_registry. case_object st obj; rewrite ?write_object_twice;
    try apply keeps_refl.
  all: apply keeps_write; rewrite Ho; simpl; intros m' k H; inversion H.
Qed.

Lemma addSpan_keeps obj span info_path : preserves keeps (addSpan obj span info_path).
Proof.
  intros st. unfold_registry. case_object st obj; try apply keeps_refl.
  all: apply keeps_write; rewrite Ho; simpl; intros m' k [= <-] [s Hs].
  all: eexists; split; [done|].
  all: destruct (decide (buildPath info_path = k)) as [<-|Hne];
    [rewrite lookup_insert_eq|rewrite lookup_insert_ne by done]; eauto.
Qed.

Lemma keeps_key_refl k st : keeps_key k st st.
Proof. intros obj m s Hm Hs. eauto. Qed.

Lemma keeps_key_trans k st1 st2 st3 :
  keeps_key k st1 st2 -> keeps_key k st2 st3 -> keeps_key k st1 st3.
Proof.
  intros H12 H23 obj m s Hm Hs. destruct (H12 obj m s Hm Hs) as (m2 & Hm2 & Hs2). eauto.
Qed.

Lemma keeps_key_same_objects k st st' : objects st' = objects st -> keeps_key k st st'.
Proof.
  intros H obj m s Hm Hs. exists m. split; [|done]. unfold object_at in *. by rewrite H.
Qed.

Lemma keeps_key_write k obj c st :
  (forall m s, SPANS (object_at st obj) = Some m -> m !! k = Some s ->
     exists m', SPANS c = Some m' /\ m' !! k = Some s) ->
  keeps_key k st (write_object obj c st).
Proof.
  intros H obj' m s Hm Hs. rewrite object_at_write. case_decide as Heq; [|eauto].
  subst obj'. eauto.
Qed.

Lemma addContextHelpers_keeps_key k obj : preserves (keeps_key k) (addContextHelpers obj).
Proof.
  intros st. unfold_registry. case_object st obj; rewrite ?write_object_twice;
    try apply keeps_key_refl.
  all: apply keeps_key_write; rewrite Ho; simpl; intros m' s H; inversion H.
Qed.

Lemma addSpan_keeps_key k obj span info_path :
  buildPath info_path <> k -> preserves (keeps_key k) (addSpan obj span info_path).
Proof.
  intros Hne st. unfold_registry. case_object st obj; try apply keeps_key_refl.
  all: apply keeps_key_write; rewrite Ho; simpl; intros m' s [= <-] Hs.
  all: eexists; split; [done|]; by rewrite lookup_insert_ne.
Qed.

Lemma step_keeps this ev st : keeps st (step this ev st).
Proof.
  assert (Hend : forall r, preserves keeps (span_end r)).
  { intros r st'. by apply keeps_same_objects. }
  destruct ev as [source args context info|f error result|f]; simpl.
  - apply (preserves_willResolveField keeps).
    + apply keeps_refl.
    + apply keeps_trans.
    + intros r l st'. by apply keeps_same_objects.
    + intros s st'. by apply keeps_same_objects.
    + apply addContextHelpers_keeps.
    + intros span. apply addSpan_keeps.
  - apply (preserves_call_fieldFinish keeps); [apply keeps_refl|apply keeps_trans|done].
  - by apply (preserves_call_requestFinish keeps).
Qed.

Lemma step_keeps_key k this ev st : away_from k ev -> keeps_key k st (step this ev st).
Proof.
  intros Haway.
  assert (Hend : forall r, preserves (keeps_key k) (span_end r)).
  { intros r st'. by apply keeps_key_same_objects. }
  destruct ev as [source args context info|f error result|f]; simpl in *.
  - apply (preserves_willResolveField (keeps_key k)).
    + apply keeps_key_refl.
    + apply keeps_key_trans.
    + intros r l st'. by apply keeps_key_same_objects.
    + intros s st'. by apply keeps_key_same_objects.
    + apply addContextHelpers_keeps_key.
    + intros span. by apply addSpan_keeps_key.
  - apply (preserves_call_fieldFinish (keeps_key k));
      [apply keeps_key_refl|apply keeps_key_trans|done].
  - by apply (preserves_call_requestFinish (keeps_key k)).
Qed.

Lemma run_cons this ev evs st : run this (ev :: evs) st = run this evs (step this ev st).
Proof. reflexivity. Qed.

Lemma run_keeps_key k this evs st :
  Forall (away_from k) evs -> keeps_key k st (run this evs st).
Proof.
  intros H. revert st. induction H as [|ev evs Hev _ IH]; intros st.
  - apply keeps_key_refl.
  - rewrite run_cons. eapply keeps_key_trans; [by apply step_keeps_key|apply IH].
Qed.

Lemma object_at_traced_store context info parent st obj :
  object_at (traced_store context info parent st) obj
  = if decide (context = obj)
    then {| getSpanByPath_fn := true; addSpan_fn := true;
            SPANS := Some (<[buildPath (path info) := length (spans st)]>
                             (registry_or_empty st context)) |}
    else object_at st obj.
Proof. unfold traced_store. by rewrite object_at_write. Qed.

(** The store a call of [willResolveField] leaves is the one it found, or
    the one with the field traced. *)
Lemma willResolveField_outcome_store this source args context info st :
  (willResolveField_outcome this source args context info st).2 = st \/
  exists parent,
    (willResolveField_outcome this source args context info st).2
    = traced_store context info parent st.
Proof.
  unfold willResolveField_outcome.
  destruct (requestSpan st); [|by left].
  destruct (shouldTraceFieldResolver _ _ _ _ _); [|by left].
  destruct (path_prev info); [|right; by eexists].
  destruct (getSpanByPath_fn _); [|by left].
  destruct (registered _ _ _); [right; by eexists|by left].
Qed.

Lemma step_all_coherent this ev st : all_coherent st -> all_coherent (step this ev st).
Proof.
  intros Hc. destruct ev as [source args context info|f error result|f].
  2,3: intros obj; unfold object_at; rewrite finish_objects by (by intros []); apply Hc.
  simpl. rewrite willResolveField_is_outcome by apply Hc.
  destruct (willResolveField_outcome_store this source args context info st)
    as [->|[parent ->]]; [done|].
  intros obj. rewrite object_at_traced_store. by case_decide.
Qed.

Lemma run_all_coherent this evs st : all_coherent st -> all_coherent (run this evs st).
Proof.
  revert st. induction evs as [|ev evs IH]; intros st Hc; [done|].
  rewrite run_cons. by apply IH, step_all_coherent.
Qed.

End OutcomeFacts.

Import Outcome OutcomeFacts.

(** ** The registry as a map *)

(** X1: on a context that carries the helpers, after [addSpan] for a path,
    [getSpanByPath] of any node returns the span just added when the key it
    looks up is the key written, and what it returned before otherwise: a
    write replaces the entry under its key (the last write wins) and touches
    no other entry. *)
Theorem registry_write_then_read context st m span info_path q :
  isSpanContext (object_at st context) = true ->
  SPANS (object_at st context) = Some m ->
  getSpanByPath context q st = (Return (m !! lookup_key q), st) /\
  exists st1,
    addSpan context span info_path st = (Return tt, st1) /\
    getSpanByPath context q st1
    = (Return (if decide (lookup_key q = buildPath info_path)
               then Some span
               else m !! lookup_key q),
       st1).
Proof.
  intros [Hg Ha]%andb_prop Hm. split; [by apply getSpanByPath_attached|].
  eexists. split; [by apply (addSpan_attached _ _ _ _ m)|].
  rewrite (getSpanByPath_attached _ _ _ (<[buildPath info_path := span]> m)).
  - case_decide as Heq.
    + by rewrite Heq, lookup_insert_eq.
    + by rewrite lookup_insert_ne.
  - by rewrite object_at_write, decide_True.
  - by rewrite object_at_write, decide_True.
Qed.

Lemma registry_write_then_read_witness :
  exists st1,
    addSpan 0 8 (Some node_as) attached_store = (Return tt, st1) /\
    getSpanByPath 0 node_as_0 st1 = (Return (Some 8), st1).
Proof.
  destruct (registry_write_then_read 0 attached_store ∅ 8 (Some node_as) node_as_0)
    as (_ & st1 & H1 & H2); [reflexivity..|].
  exists st1. split; [exact H1|exact H2].
Defined.

(** X2: a call of [willResolveField] changes no context object but the one
    it is given, and calling a closure changes no context object at all. *)
Theorem only_the_given_context_changes this ev st obj :
  match ev with
  | WillResolveField _ _ context _ => obj <> context
  | _ => True
  end ->
  object_at (step this ev st) obj = object_at st obj.
Proof.
  destruct ev as [source args context info|f error result|f]; intros Hne.
  2,3: unfold object_at; by rewrite finish_objects by (by intros []).
  simpl. revert obj Hne.
  apply (preserves_willResolveField (others_untouched context)).
  - apply others_untouched_refl.
  - apply others_untouched_trans.
  - by intros r l st' obj _.
  - by intros s st' obj _.
  - apply addContextHelpers_others.
  - intros span. apply addSpan_others.
Qed.

Lemma only_the_given_context_changes_witness :
  object_at (step plain_extension (visit "a" node_a) request_open) 1
  = object_at request_open 1.
Proof.
  apply (only_the_given_context_changes plain_extension (visit "a" node_a) request_open 1).
  simpl. lia.
Defined.

(** X3: whatever the host does, no entry of a registry is ever removed; and
    the span under a key stays the same as long as the host announces no node
    with that path key. *)
Theorem registry_entries_persist this evs st obj m k s :
  SPANS (object_at st obj) = Some m ->
  m !! k = Some s ->
  (exists m', SPANS (object_at (run this evs st) obj) = Some m' /\ is_Some (m' !! k)) /\
  (Forall (away_from k) evs ->
   exists m', SPANS (object_at (run this evs st) obj) = Some m' /\ m' !! k = Some s).
Proof.
  intros Hm Hs. split.
  - revert st m s Hm Hs. induction evs as [|ev evs IH]; intros st m s Hm Hs; [eauto|].
    rewrite run_cons.
    destruct (step_keeps this ev st obj m k Hm) as (m1 & Hm1 & [s1 Hs1]); eauto.
  - intros Haway. by apply (run_keeps_key k this evs st Haway obj m s).
Qed.

Lemma registry_entries_persist_witness :
  let st := (addSpan 0 8 (Some node_a) attached_store).2 in
  let evs := [visit "b" (named None "b"); FieldDone (fieldFinish plain_extension 1) VNull VNull] in
  exists m', SPANS (object_at (run plain_extension evs st) 0) = Some m' /\ m' !! "a" = Some 8.
Proof.
  intros st evs.
  destruct (registry_entries_persist plain_extension evs st 0 {[ "a" := 8 ]} "a" 8)
    as [_ H]; [vm_compute; reflexivity..|].
  apply H. apply Forall_cons. split; [vm_compute; intros H'; inversion H'|].
  apply Forall_cons. split; [exact I|]. apply Forall_nil_2.
Defined.

(** X4: the three properties are installed together and never apart: if
    every context object is plain or carries all three, this is still so after
    [addContextHelpers], after [addSpan], and after anything the host does. *)
Theorem helpers_stay_together this st :
  all_coherent st ->
  (forall obj, all_coherent (addContextHelpers obj st).2) /\
  (forall obj span info_path, all_coherent (addSpan obj span info_path st).2) /\
  (forall evs, all_coherent (run this evs st)).
Proof.
  intros Hc. split; [|split].
  - intros obj obj'. specialize (Hc obj) as Ho. unfold coherent in Ho.
    destruct (object_at st obj) as [g a [m|]] eqn:Hobj; simpl in Ho.
    + apply andb_prop in Ho as [-> ->].
      rewrite addContextHelpers_attached by by rewrite Hobj. apply Hc.
    + apply andb_prop in Ho as [->%negb_true_iff ->%negb_true_iff].
      rewrite addContextHelpers_plain by done. simpl.
      rewrite object_at_write. case_decide; [done|apply Hc].
  - intros obj span info_path obj'. specialize (Hc obj) as Ho. unfold coherent in Ho.
    destruct (object_at st obj) as [g a [m|]] eqn:Hobj; simpl in Ho.
    + apply andb_prop in Ho as [-> ->].
      rewrite (addSpan_attached _ _ _ _ m) by by rewrite Hobj. simpl.
      rewrite object_at_write. case_decide; [by rewrite Hobj|apply Hc].
    + apply andb_prop in Ho as [_ Ha%negb_true_iff].
      unfold addSpan, bind, deref. simpl. rewrite Hobj. simpl. rewrite Ha. apply Hc.
  - intros evs. by apply run_all_coherent.
Qed.

Lemma helpers_stay_together_witness :
  all_coherent (run plain_extension query_a_one request_open).
Proof.
  apply (proj2 (proj2 (helpers_stay_together plain_extension request_open
                         (fun obj => eq_refl)))).
Defined.

(** ** What a call of [willResolveField] does *)

Lemma willResolveField_cases this source args context info st :
  coherent (object_at st context) = true ->
  let r := willResolveField this source args context info st in
  (r = (Return (info, None), st)) \/
  (r = (Throw (TypeError "context.getSpanByPath is not a function"), st)) \/
  (is_Some (requestSpan st) /\
   shouldTraceFieldResolver this source args context info = true /\
   is_Some (parent_span st context info) /\
   r = traced this source args context info (parent_span st context info) st).
Proof.
  intros Hc r. unfold r. rewrite willResolveField_is_outcome by done.
  unfold willResolveField_outcome, parent_span.
  destruct (requestSpan st) as [root|]; [|by left].
  destruct (shouldTraceFieldResolver _ _ _ _ _); [|by left].
  destruct (path_prev info) as [p|]; [|right; right; eauto].
  destruct (getSpanByPath_fn _); [|right; by left].
  destruct (registered st context p); [right; right; eauto|by left].
Qed.

(** A field whose parent span is found is traced under it. *)
Lemma willResolveField_under_parent this source args context info st root p parent :
  coherent (object_at st context) = true ->
  requestSpan st = Some root ->
  shouldTraceFieldResolver this source args context info = true ->
  path_prev info = Some p ->
  registered st context p = Some parent ->
  willResolveField this source args context info st
  = traced this source args context info (Some parent) st.
Proof.
  intros Hc Hreq Hpred Hp Hreg. rewrite willResolveField_is_outcome by done.
  unfold willResolveField_outcome. rewrite Hreq, Hpred, Hp, Hreg.
  destruct (getSpanByPath_fn (object_at st context)) eqn:Hg; [done|].
  exfalso. unfold registered in Hreg. unfold coherent in Hc.
  destruct (SPANS (object_at st context)); [|done]. by rewrite Hg in Hc.
Qed.

Lemma traced_store_facts context info parent st :
  spans (traced_store context info parent st) = spans st ++ [field_span info parent] /\
  requestSpan (traced_store context info parent st) = requestSpan st /\
  object_at (traced_store context info parent st) context
  = {| getSpanByPath_fn := true; addSpan_fn := true;
       SPANS := Some (<[buildPath (path info) := length (spans st)]>
                        (registry_or_empty st context)) |}.
Proof. split; [done|]. split; [done|]. by rewrite object_at_traced_store, decide_True. Qed.

(** X5: when [willResolveField] returns a closure, the tracer has exactly
    one more span: it is named after the alias, else the field name, else
    ["field"], is of kind server, is open, continues the parent span (the
    registry's entry for the node before it, or the request span for a
    top-level field) and has one link, to that parent.  The span is exposed as
    [info.span], the closure is the one for it, the context object carries the
    helpers and holds the span under the node's path key, and [requestSpan] is
    as before. *)
Theorem traced_field_gets_span this source args context info st info' f st' :
  coherent (object_at st context) = true ->
  willResolveField this source args context info st = (Return (info', Some f), st') ->
  let span := length (spans st) in
  exists parent,
    parent_span st context info = Some parent /\
    spans st'
    = spans st ++
      [{| name := getFieldName info; kind := SERVER; continues := Some (OfSpan parent);
          links := [{| link_to := parent; link_type := CHILD_LINKED_SPAN |}];
          ended := false |}] /\
    info' = expose info span /\
    f = fieldFinish this span /\
    object_at st' context
    = {| getSpanByPath_fn := true; addSpan_fn := true;
         SPANS := Some (<[buildPath (path info) := span]> (registry_or_empty st context)) |} /\
    requestSpan st' = requestSpan st.
Proof.
  intros Hc H span.
  destruct (willResolveField_cases this source args context info st Hc)
    as [Hr|[Hr|(_ & _ & [parent Hp] & Hr)]]; rewrite Hr in H; try by inversion H.
  exists parent. split; [done|]. rewrite Hp in H. unfold traced in H.
  destruct (resolve_hook_completion _ _ _ _ _); inversion H; subst.
  destruct (traced_store_facts context info (Some parent) st) as (Hs & Hq & Ho).
  by rewrite Hs, Hq, Ho.
Qed.

Lemma traced_field_gets_span_witness :
  exists parent,
    parent_span request_open 0 (field "a" node_a) = Some parent /\
    spans (willResolveField plain_extension VUndefined VUndefined 0 (field "a" node_a)
             request_open).2
    = spans request_open ++
      [{| name := "a"; kind := SERVER; continues := Some (OfSpan parent);
          links := [{| link_to := parent; link_type := CHILD_LINKED_SPAN |}];
          ended := false |}].
Proof.
  destruct (traced_field_gets_span plain_extension VUndefined VUndefined 0
              (field "a" node_a) request_open
              (expose (field "a" node_a) 1) (fieldFinish plain_extension 1)
              (willResolveField plain_extension VUndefined VUndefined 0 (field "a" node_a)
                 request_open).2)
    as (parent & H1 & H2 & _); [reflexivity|vm_compute; reflexivity|].
  exists parent. split; [exact H1|exact H2].
Defined.

(** X6: a call of [willResolveField] that returns [undefined] has changed
    nothing: no span was started, no context object was touched, and [info]
    is as it was.  The same holds of a call on a node that has a parent when
    the context object has no [getSpanByPath], whether the guard returns or
    throws. *)
Theorem untraced_field_leaves_no_trace this source args context info st :
  (coherent (object_at st context) = true ->
   forall info' st',
     willResolveField this source args context info st = (Return (info', None), st') ->
     st' = st /\ info' = info) /\
  (forall p,
     path_prev info = Some p ->
     getSpanByPath_fn (object_at st context) = false ->
     (willResolveField this source args context info st).2 = st).
Proof.
  split.
  - intros Hc info' st' H.
    destruct (willResolveField_cases this source args context info st Hc)
      as [Hw|[Hw|(_ & _ & _ & Hw)]]; rewrite Hw in H.
    + by injection H as <- <-.
    + inversion H.
    + exfalso. unfold traced in H.
      destruct (resolve_hook_completion _ _ _ _ _); inversion H.
  - intros p Hp Hfn. unfold willResolveField, bind, get_requestSpan. rewrite Hp.
    destruct (requestSpan st) as [root|]; simpl; [|done].
    destruct (shouldTraceFieldResolver _ _ _ _ _); simpl; [|done].
    by rewrite getSpanByPath_missing.
Qed.

Lemma untraced_field_leaves_no_trace_witness :
  (willResolveField skipping_a VUndefined VUndefined 0 (field "a" node_a) request_open).2
  = request_open /\
  (willResolveField plain_extension VUndefined VUndefined 0 (field "one" node_a_one)
     request_open).2 = request_open.
Proof.
  split.
  - apply (proj1 (untraced_field_leaves_no_trace skipping_a VUndefined VUndefined 0
                    (field "a" node_a) request_open) eq_refl (field "a" node_a)).
    reflexivity.
  - apply (proj2 (untraced_field_leaves_no_trace plain_extension VUndefined VUndefined 0
                    (field "one" node_a_one) request_open) node_a); reflexivity.
Defined.

(** X7: when the [onFieldResolve] hook throws, [willResolveField] throws
    what the hook threw and returns no closure, although the span of the field
    has been started and registered under the node's path key: nothing ends
    that span. *)
Theorem resolve_hook_throw_leaves_span_open this source args context info st thrown st' :
  coherent (object_at st context) = true ->
  willResolveField this source args context info st = (Throw (Thrown thrown), st') ->
  let span := length (spans st) in
  resolve_hook_completion this source args context (expose info span) = Abrupt thrown /\
  exists parent,
    parent_span st context info = Some parent /\
    spans st' = spans st ++ [field_span info (Some parent)] /\
    ended <$> spans st' !! span = Some false /\
    exists m, SPANS (object_at st' context) = Some m /\
              m !! buildPath (path info) = Some span.
Proof.
  intros Hc H span.
  destruct (willResolveField_cases this source args context info st Hc)
    as [Hr|[Hr|(_ & _ & [parent Hp] & Hr)]]; rewrite Hr in H; try by inversion H.
  rewrite Hp in H. unfold traced in H. fold span in H.
  destruct (resolve_hook_completion _ _ _ _ _) as [|v] eqn:Hhook; inversion H; subst.
  split; [done|]. exists parent. split; [done|].
  destruct (traced_store_facts context info (Some parent) st) as (Hs & _ & Ho).
  split; [done|]. split.
  - rewrite Hs. unfold span. by rewrite list_lookup_middle.
  - rewrite Ho. eexists. split; [done|]. apply lookup_insert_eq.
Qed.

Lemma resolve_hook_throw_leaves_span_open_witness :
  let st' := (willResolveField resolve_throws VUndefined VUndefined 0 (field "a" node_a)
                request_open).2 in
  resolve_hook_completion resolve_throws VUndefined VUndefined 0
    (expose (field "a" node_a) 1) = Abrupt (VOpaque 2) /\
  ended <$> spans st' !! 1 = Some false.
Proof.
  intros st'.
  destruct (resolve_hook_throw_leaves_span_open resolve_throws VUndefined VUndefined 0
              (field "a" node_a) request_open (VOpaque 2) st')
    as (H1 & parent & _ & _ & H2 & _); [reflexivity|vm_compute; reflexivity|].
  split; [exact H1|exact H2].
Defined.

(** ** The span tree *)

(** X8: a field is traced under the span of the field above it.  If a
    field was traced and got the span [s], then, whatever the host does in
    between short of announcing a node with the same path key (it may call
    the closure of [s], so that [s] has ended), a field that the predicate
    accepts and whose path goes on from that node, directly or through one
    list index, gets a span that continues [s] and is linked to [s]. *)
Theorem child_span_continues_parent_span this sp ap context info_p st info_p' f st1
    evs sc ac info_c p q p' :
  all_coherent st ->
  willResolveField this sp ap context info_p st = (Return (info_p', Some f), st1) ->
  path info_p = Some p ->
  Forall (away_from (buildPath (Some p))) evs ->
  path_prev info_c = Some q ->
  (if isArrayPath q then prev q else Some q) = Some p' ->
  path_keys p' = path_keys p ->
  shouldTraceFieldResolver this sc ac context info_c = true ->
  let s := length (spans st) in
  let st2 := run this evs st1 in
  spans (willResolveField this sc ac context info_c st2).2
  = spans st2 ++ [field_span info_c (Some s)].
Proof.
  intros Hall H Hpath Haway Hq Hstrip Hkeys Hpred s st2.
  assert (Hst1 : st1 = step this (WillResolveField sp ap context info_p) st).
  { simpl. by rewrite H. }
  destruct (willResolveField_cases this sp ap context info_p st (Hall context))
    as [Hr|[Hr|([root Hroot] & _ & [parent Hp] & Hr)]]; rewrite Hr in H; try by inversion H.
  assert (st1 = traced_store context info_p (Some parent) st) as Hts.
  { rewrite Hp in H. unfold traced in H. by destruct (resolve_hook_completion _ _ _ _ _);
      inversion H. }
  destruct (traced_store_facts context info_p (Some parent) st) as (_ & _ & Ho).
  rewrite <- Hts, Hpath in Ho.
  destruct (run_keeps_key (buildPath (Some p)) this evs st1 Haway context
              (<[buildPath (Some p) := s]> (registry_or_empty st context)) s)
    as (m2 & Hm2 & Hs2).
  { by rewrite Ho. }
  { apply lookup_insert_eq. }
  fold st2 in Hm2.
  assert (Hall2 : all_coherent st2).
  { unfold st2. apply run_all_coherent. rewrite Hst1. by apply step_all_coherent. }
  rewrite (willResolveField_under_parent this sc ac context info_c st2 root q s);
    [done|apply Hall2| |done|done|].
  - unfold st2. rewrite run_requestSpan, Hst1, step_requestSpan. done.
  - unfold registered, lookup_key. rewrite Hm2, Hstrip. simpl.
    assert (buildPath (Some p') = buildPath (Some p)) as ->; [|done].
    rewrite !buildPath_keys. simpl. by rewrite Hkeys.
Qed.

Lemma child_span_continues_parent_span_witness :
  let st1 := (willResolveField plain_extension VUndefined VUndefined 0 (field "as" node_as)
                request_open).2 in
  let st2 := run plain_extension [FieldDone (fieldFinish plain_extension 1) VNull VNull] st1 in
  spans (willResolveField plain_extension VUndefined VUndefined 0
           (field "one" (named (Some node_as_0) "one")) st2).2
  = spans st2 ++ [field_span (field "one" (named (Some node_as_0) "one")) (Some 1)].
Proof.
  intros st1 st2.
  apply (child_span_continues_parent_span plain_extension VUndefined VUndefined 0
           (field "as" node_as) request_open (expose (field "as" node_as) 1)
           (fieldFinish plain_extension 1) st1
           [FieldDone (fieldFinish plain_extension 1) VNull VNull]
           VUndefined VUndefined (field "one" (named (Some node_as_0) "one"))
           node_as node_as_0 node_as).
  - intros obj. reflexivity.
  - vm_compute. reflexivity.
  - reflexivity.
  - apply Forall_cons. split; [exact I|apply Forall_nil_2].
  - reflexivity.
  - reflexivity.
  - reflexivity.
  - reflexivity.
Defined.

(** ** The request span *)

(** X9: when [shouldTraceRequest] accepts the request and the
    [onRequestResolve] hook returns, [requestDidStart] starts exactly one
    span, named ["request"], of kind server, open and without links; it
    continues what the tracer's extractor finds in the request headers, and
    nothing when the request has no headers; the span becomes [requestSpan],
    the closure returned is the one for it, and no context object is
    touched. *)
Theorem request_start_opens_root_span this infos st :
  shouldTraceRequest this infos = true ->
  onRequestResolve this (length (spans st)) infos = Normal ->
  let root := length (spans st) in
  exists st1,
    requestDidStart this infos st = (Return (Some (requestFinish root)), st1) /\
    spans st1
    = spans st ++
      [{| name := "request"; kind := SERVER;
          continues := match request infos with
                       | Some {| headers := Some h |} =>
                           extract (tracer this) (fun name => h !! name)
                       | _ => None
                       end;
          links := []; ended := false |}] /\
    requestSpan st1 = Some root /\
    objects st1 = objects st.
Proof.
  intros Hpred Hhook root. rewrite requestDidStart_is_outcome, Hpred. cbv zeta.
  rewrite Hhook. eexists. split; [reflexivity|]. done.
Qed.

Lemma request_start_opens_root_span_witness :
  let infos :=
    {| request := Some {| headers := Some {[ "traceparent" := "00-ab-cd-01" ]} |};
       operationName := None; context := 0 |} in
  let this :=
    {| tracer := traceparent_tracer; onFieldResolveFinish := None; onFieldResolve := None;
       shouldTraceRequest := alwaysTrue; shouldTraceFieldResolver := fun _ _ _ => alwaysTrue;
       onRequestResolve := emptyFunction |} in
  exists st1,
    requestDidStart this infos empty_store = (Return (Some (requestFinish 0)), st1) /\
    spans st1
    = [{| name := "request"; kind := SERVER;
          continues := Some (Propagated "00-ab-cd-01"); links := []; ended := false |}].
Proof.
  intros infos this.
  destruct (request_start_opens_root_span this infos empty_store)
    as (st1 & H1 & H2 & _); [reflexivity..|].
  exists st1. split; [exact H1|]. rewrite H2. vm_compute. reflexivity.
Defined.

(** X10: when the [onRequestResolve] hook throws, [requestDidStart] throws
    what the hook threw and returns no closure, the request span has been
    started and stays open, and [requestSpan] is not set: on an instance
    whose [requestSpan] was [null], no field of the request is traced. *)
Theorem request_hook_throw_leaves_request_untraced this infos st thrown :
  shouldTraceRequest this infos = true ->
  onRequestResolve this (length (spans st)) infos = Abrupt thrown ->
  exists st1,
    requestDidStart this infos st = (Throw (Thrown thrown), st1) /\
    spans st1 = spans st ++ [request_span this infos] /\
    ended (request_span this infos) = false /\
    requestSpan st1 = requestSpan st /\
    (requestSpan st = None ->
     forall evs source args context info,
       let st2 := run this evs st1 in
       willResolveField this source args context info st2 = (Return (info, None), st2)).
Proof.
  intros Hpred Hhook. rewrite requestDidStart_is_outcome, Hpred. cbv zeta. rewrite Hhook.
  eexists. split; [reflexivity|]. split; [done|]. split; [done|]. split; [done|].
  intros Hreq evs source args context info.
  apply willResolveField_no_requestSpan. by rewrite run_requestSpan.
Qed.

Lemma request_hook_throw_leaves_request_untraced_witness :
  exists st1,
    requestDidStart request_hook_throws post empty_store = (Throw (Thrown (VOpaque 3)), st1) /\
    willResolveField request_hook_throws VUndefined VUndefined 0 (field "a" node_a) st1
    = (Return (field "a" node_a, None), st1).
Proof.
  destruct (request_hook_throw_leaves_request_untraced request_hook_throws post
              empty_store (VOpaque 3)) as (st1 & H1 & _ & _ & _ & H2); [reflexivity..|].
  exists st1. split; [exact H1|].
  exact (H2 eq_refl [] VUndefined VUndefined 0 (field "a" node_a)).
Defined.

(** X11: constructing without a tracer throws and changes nothing.
    Constructing with a tracer and nothing else sets [requestSpan] to [null]
    and gives an instance that accepts every request and every field and whose
    hooks return: [requestDidStart] then always returns a closure, for a new
    span. *)
Theorem constructor_defaults :
  (forall options st,
     opt_tracer options = None ->
     exists msg, constructor options st = (Throw (Error msg), st)) /\
  (forall tr st,
     exists this,
       constructor (tracer_only tr) st = (Return this, write_requestSpan None st) /\
       tracer this = tr /\
       (forall infos, shouldTraceRequest this infos = true) /\
       (forall source args context info,
          shouldTraceFieldResolver this source args context info = true) /\
       hooks_return this /\
       (forall infos st',
          exists st1,
            requestDidStart this infos st'
            = (Return (Some (requestFinish (length (spans st')))), st1))).
Proof.
  split.
  - intros options st H. unfold constructor. rewrite H. by eexists.
  - intros tr st. eexists. split; [reflexivity|]. simpl.
    split; [done|]. split; [done|]. split; [done|]. split; [by split|].
    intros infos st'. rewrite requestDidStart_is_outcome. simpl. by eexists.
Qed.

Lemma constructor_defaults_witness :
  exists msg,
    constructor
      {| opt_tracer := None; opt_onFieldResolveFinish := None; opt_onFieldResolve := None;
         opt_shouldTraceRequest := None; opt_shouldTraceFieldResolver := None;
         opt_onRequestResolve := None |} empty_store
    = (Throw (Error msg), empty_store).
Proof. apply (proj1 constructor_defaults). reflexivity. Defined.

(** ** Lists inside lists *)

Lemma field_keys_step this ev st :
  field_event ev -> field_keys st -> field_keys (step this ev st).
Proof.
  intros Hev Hst. destruct ev as [source args context info|f error result|f].
  2,3: intros obj m k; unfold object_at; rewrite finish_objects by (by intros []);
    apply Hst.
  simpl in *. destruct Hev as (p & Hp & Hwf & Harr).
  intros obj m' k Hm' Hk.
  destruct (willResolveField_grows this source args context info st obj m' k Hm' Hk)
    as [<-|(m & Hm & Hmk)].
  - exists p. by rewrite Hp.
  - by apply (Hst obj m k).
Qed.

Lemma field_keys_run this evs st :
  Forall field_event evs -> field_keys st -> field_keys (run this evs st).
Proof.
  intros H. revert st. induction H as [|ev evs Hev _ IH]; intros st Hst; [done|].
  rewrite run_cons. by apply IH, field_keys_step.
Qed.

(** X12: the fields of the elements of a list inside a list are never
    traced.  When the host announces field nodes only and the registries
    start out with keys of field nodes only (as on fresh context objects), a
    field whose path ends in a name after two list indices finds no parent
    span, because [getSpanByPath] strips one index only and no span is ever
    registered under a key that ends in an index: the call changes nothing and
    returns [undefined] or throws. *)
Theorem fields_of_nested_list_elements_are_untraced this evs st0 source args context
    info m outer inner :
  field_keys st0 ->
  Forall field_event evs ->
  path info = Some m ->
  prev m = Some inner -> isArrayPath inner = true ->
  prev inner = Some outer -> isArrayPath outer = true ->
  wf_path outer = true ->
  let st := run this evs st0 in
  exists r,
    willResolveField this source args context info st = (r, st) /\
    (r = Return (info, None) \/ exists e, r = Throw e).
Proof.
  intros Hst0 Hevs Hpath Hinner Hiarr Houter Hoarr Hwf st.
  assert (Hst : field_keys st) by by apply field_keys_run.
  apply (willResolveField_parent_unregistered _ _ _ _ _ _ inner).
  { unfold path_prev. by rewrite Hpath. }
  unfold registered, lookup_key. rewrite Hiarr, Houter.
  destruct (SPANS (object_at st context)) as [reg|] eqn:Hreg; simpl; [|done].
  destruct (reg !! buildPath (Some outer)) as [s|] eqn:Hs; [exfalso|done].
  destruct (Hst context reg (buildPath (Some outer)) Hreg) as (p & Hwp & Hparr & Heq);
    [by eexists|].
  apply buildPath_inj in Heq; [|done..]. simpl in Heq.
  apply (f_equal last) in Heq. rewrite !path_keys_last in Heq. injection Heq as Heq.
  unfold isArrayPath in *. rewrite Heq in Hoarr. by rewrite Hoarr in Hparr.
Qed.

Lemma fields_of_nested_list_elements_are_untraced_witness :
  let matrix := named None "matrix" in
  let cell := indexed (Some (indexed (Some matrix) 0)) 1 in
  let info := field "four" (named (Some cell) "four") in
  let st := run plain_extension [visit "matrix" matrix] request_open in
  exists r,
    willResolveField plain_extension VUndefined VUndefined 0 info st = (r, st) /\
    (r = Return (info, None) \/ exists e, r = Throw e).
Proof.
  intros matrix cell info st.
  apply (fields_of_nested_list_elements_are_untraced plain_extension
           [visit "matrix" matrix] request_open VUndefined VUndefined 0 info
           (named (Some cell) "four") (indexed (Some matrix) 0) cell).
  - intros obj reg k H. inversion H.
  - apply Forall_cons. split; [|apply Forall_nil_2].
    exists matrix. split; [reflexivity|]. split; reflexivity.
  - reflexivity.
  - reflexivity.
  - reflexivity.
  - reflexivity.
  - reflexivity.
  - reflexivity.
Defined.

(** ** Every span is ended *)

Lemma elem_of_delete_other {A} (l : list A) i x y :
  l !! i = Some y -> x <> y -> x ∈ l -> x ∈ delete i l.
Proof.
  intros Hi Hne [j Hj]%list_elem_of_lookup. apply list_elem_of_lookup.
  destruct (decide (j < i)) as [Hlt|Hge].
  - exists j. by rewrite list_lookup_delete_lt.
  - assert (j <> i) by (intros ->; congruence).
    exists (pred j). rewrite list_lookup_delete_ge by lia.
    by replace (S (pred j)) with j by lia.
Qed.

Lemma accounted_act this root h a :
  hooks_return this -> accounted this root h -> accounted this root (act this h a).
Proof.
  intros [Hresolve Hfinish] (Hc & Hp & Hs).
  destruct a as [source args context info|i error result]; simpl.
  - destruct (willResolveField_cases this source args context info (store h) (Hc context))
      as [Hr|[Hr|(_ & _ & [parent Hparent] & Hr)]]; rewrite Hr.
    + simpl. rewrite app_nil_r. by destruct h.
    + simpl. rewrite app_nil_r. by destruct h.
    + rewrite Hparent. unfold traced. rewrite Hresolve. simpl.
      split; [|split]; cbn [store pending].
      * intros obj. rewrite object_at_traced_store. case_decide; [done|apply Hc].
      * intros f [Hf|Hf%list_elem_of_singleton]%elem_of_app; [by apply Hp|]. eauto.
      * intros r s Hr' Hl. simpl in Hl.
        apply lookup_app_Some in Hl as [Hl|[Hge Hl]].
        -- destruct (Hs r s Hr' Hl) as [?|Hin]; [by left|right].
           apply elem_of_app. by left.
        -- right. apply elem_of_app. right.
           destruct (r - length (spans (store h))) as [|n] eqn:Hn; [|done].
           replace r with (length (spans (store h))) by lia.
           by apply list_elem_of_singleton.
  - destruct (pending h !! i) as [f|] eqn:Hi; [|done].
    destruct (Hp f) as [r0 ->]; [by eapply list_elem_of_lookup_2|].
    simpl. unfold bind. specialize (Hfinish error result r0).
    unfold finish_hook_completion in Hfinish.
    assert (Hstore :
      (let (r, st') :=
         match onFieldResolveFinish this with
         | Some hook => run_hook (hook error result r0)
         | None => ret ()
         end (store h) in
       match r with
       | Return _ => span_end r0 st'
       | Throw e => (Throw e, st')
       end).2 = write_spans (alter mark_ended r0 (spans (store h))) (store h)).
    { destruct (onFieldResolveFinish this) as [hook|]; [by rewrite Hfinish|done]. }
    rewrite Hstore. split; [|split]; cbn [store pending].
    + intros obj. apply Hc.
    + intros f Hf%list_elem_of_delete_inv. by apply Hp.
    + intros r s Hr' Hl. simpl in Hl.
      destruct (decide (r0 = r)) as [->|Hne].
      * left. rewrite list_lookup_alter_eq in Hl.
        destruct (spans (store h) !! r); simpl in Hl; [|done]. by injection Hl as <-.
      * rewrite list_lookup_alter_ne in Hl by done.
        destruct (Hs r s Hr' Hl) as [?|Hin]; [by left|right].
        apply (elem_of_delete_other _ _ _ (fieldFinish this r0)); [done| |done].
        intros [= ->]. done.
Qed.

Lemma accounted_run this root actions h :
  hooks_return this -> accounted this root h ->
  accounted this root (host_run this actions h).
Proof.
  intros Hh. revert h. induction actions as [|a actions IH]; intros h Ha; [done|].
  apply IH. by apply accounted_act.
Qed.

(** X13: no span is left open.  On an instance whose hooks return, after a
    traced request start, however the host interleaves announcing fields and
    calling the closures it was handed (each at most once), every field span
    started since has ended or has its closure still with the host; so once
    the host has called them all and calls the request closure, every span of
    the request has ended. *)
Theorem all_spans_end this infos st fin st1 actions :
  all_coherent st ->
  hooks_return this ->
  requestDidStart this infos st = (Return (Some fin), st1) ->
  let root := length (spans st) in
  let h := host_run this actions {| store := st1; pending := [] |} in
  (forall r s, root < r -> spans (store h) !! r = Some s ->
     ended s = true \/ fieldFinish this r ∈ pending h) /\
  (pending h = [] ->
   forall r s, root <= r -> spans (call_requestFinish fin (store h)).2 !! r = Some s ->
     ended s = true).
Proof.
  intros Hc Hhooks H root h.
  rewrite requestDidStart_is_outcome in H.
  destruct (shouldTraceRequest this infos); [|inversion H]. cbv zeta in H.
  destruct (onRequestResolve this (length (spans st)) infos); inversion H; subst. clear H.
  assert (Hacc : accounted this root h).
  { apply accounted_run; [done|]. split; [|split].
    - intros obj. apply Hc.
    - intros f Hf. by apply elem_of_nil in Hf.
    - intros r s Hr Hl. simpl in Hl. apply lookup_app_Some in Hl as [Hl|[Hge Hl]].
      + apply lookup_lt_Some in Hl. unfold root in Hr. lia.
      + simpl in Hge, Hl. unfold root in Hr.
        destruct (r - length (spans st)) as [|n] eqn:Hn; [lia|done]. }
  destruct Hacc as (_ & _ & Hs). split; [done|].
  intros Hpending r s Hr Hl. simpl in Hl. fold root in Hl.
  destruct (decide (root = r)) as [<-|Hne].
  - rewrite list_lookup_alter_eq in Hl.
    destruct (spans (store h) !! root); simpl in Hl; [|done]. by injection Hl as <-.
  - rewrite list_lookup_alter_ne in Hl by done.
    destruct (Hs r s) as [?|Hin]; [lia|done|done|].
    rewrite Hpending in Hin. by apply elem_of_nil in Hin.
Qed.

Lemma all_spans_end_witness :
  let st1 := (requestDidStart plain_extension post empty_store).2 in
  let h :=
    host_run plain_extension
      [Announce VUndefined VUndefined 0 (field "a" node_a);
       Complete 0 VNull (VOpaque 0);
       Announce VUndefined VUndefined 0 (field "one" node_a_one);
       Complete 0 VNull (VOpaque 1)]
      {| store := st1; pending := [] |} in
  length (spans (store h)) = 3 /\
  forall r s, 0 <= r -> spans (call_requestFinish (requestFinish 0) (store h)).2 !! r = Some s ->
    ended s = true.
Proof.
  intros st1 h. split; [reflexivity|].
  apply (proj2 (all_spans_end plain_extension post empty_store (requestFinish 0) st1
                  [Announce VUndefined VUndefined 0 (field "a" node_a);
                   Complete 0 VNull (VOpaque 0);
                   Announce VUndefined VUndefined 0 (field "one" node_a_one);
                   Complete 0 VNull (VOpaque 1)]
                  (fun obj => eq_refl) (conj (fun _ _ _ _ => eq_refl) (fun _ _ _ => eq_refl))
                  eq_refl)).
  reflexivity.
Defined.

(** ** Spans are kept *)

Lemma spans_stay_refl st : spans_stay st st.
Proof. intros r s H. eauto 10. Qed.

Lemma spans_stay_trans st1 st2 st3 :
  spans_stay st1 st2 -> spans_stay st2 st3 -> spans_stay st1 st3.
Proof.
  intros H12 H23 r s H. destruct (H12 r s H) as (s2 & H2 & Hn2 & Hk2 & Hc2 & He2).
  destruct (H23 r s2 H2) as (s3 & H3 & Hn3 & Hk3 & Hc3 & He3).
  exists s3. repeat split; [done|congruence..|auto].
Qed.

Lemma spans_stay_same st st' : spans st' = spans st -> spans_stay st st'.
Proof. intros Heq r s H. rewrite Heq. eauto 10. Qed.

Lemma spans_stay_alter f r st :
  (forall s, name (f s) = name s /\ kind (f s) = kind s /\ continues (f s) = continues s /\
             (ended s = true -> ended (f s) = true)) ->
  spans_stay st (write_spans (alter f r (spans st)) st).
Proof.
  intros Hf r' s H. simpl. destruct (decide (r = r')) as [<-|Hne].
  - exists (f s). split; [by rewrite list_lookup_alter_eq, H|apply Hf].
  - exists s. split; [by rewrite list_lookup_alter_ne|done].
Qed.

Lemma step_spans_stay this ev st : spans_stay st (step this ev st).
Proof.
  assert (Hend : forall r, preserves spans_stay (span_end r)).
  { intros r st'. by apply spans_stay_alter. }
  assert (Hlink : forall r l, preserves spans_stay (span_addLink r l)).
  { intros r l st'. by apply spans_stay_alter. }
  destruct ev as [source args context info|f error result|f]; simpl.
  - apply (preserves_willResolveField spans_stay).
    + apply spans_stay_refl.
    + apply spans_stay_trans.
    + done.
    + intros s st' r s0 H. exists s0. split; [|done]. simpl. by apply lookup_app_l_Some.
    + intros st'. apply spans_stay_same, addContextHelpers_tracer.
    + intros span st'. apply spans_stay_same, addSpan_tracer.
  - apply (preserves_call_fieldFinish spans_stay);
      [apply spans_stay_refl|apply spans_stay_trans|done].
  - by apply (preserves_call_requestFinish spans_stay).
Qed.

(** X14: whatever the host does, a span that the tracer holds stays where
    it is, with its name, its kind and the span it continues, and a span that
    has ended stays ended: the code drops no span, renames none, moves none
    under another parent and reopens none. *)
Theorem spans_are_kept this evs st r s :
  spans st !! r = Some s ->
  exists s',
    spans (run this evs st) !! r = Some s' /\
    name s' = name s /\ kind s' = kind s /\ continues s' = continues s /\
    (ended s = true -> ended s' = true).
Proof.
  revert st s. induction evs as [|ev evs IH]; intros st s H; [eauto 10|].
  rewrite run_cons.
  destruct (step_spans_stay this ev st r s H) as (s1 & H1 & Hn1 & Hk1 & Hc1 & He1).
  destruct (IH _ s1 H1) as (s2 & H2 & Hn2 & Hk2 & Hc2 & He2).
  exists s2. repeat split; [done|congruence..|auto].
Qed.

Lemma spans_are_kept_witness :
  exists s',
    spans (run plain_extension query_a_one request_open) !! 0 = Some s' /\
    name s' = "request".
Proof.
  destruct (spans_are_kept plain_extension query_a_one request_open 0
              (new_span {| to_name := "request"; to_kind := SERVER; to_spanContext := None |})
              eq_refl) as (s' & H1 & H2 & _).
  exists s'. split; [exact H1|exact H2].
Defined.

(** ** Path keys and positions *)

(** X15: on chains whose keys are response names (not empty, no dot, no
    leading bracket) and list indices, two chains have the same path key
    exactly when they have the same keys in the same order: the registry never
    confuses two positions of the response. *)
Theorem path_key_identifies_position p q :
  wf_chain p = true -> wf_chain q = true ->
  buildPath p = buildPath q <-> chain_keys p = chain_keys q.
Proof.
  intros Hp Hq. split; [by apply buildPath_inj|].
  intros H. by rewrite !buildPath_keys, H.
Qed.

Lemma path_key_identifies_position_witness :
  buildPath (Some node_as_0) = buildPath (Some (indexed (Some node_as) 1)) <->
  chain_keys (Some node_as_0) = chain_keys (Some (indexed (Some node_as) 1)).
Proof.
  apply (path_key_identifies_position (Some node_as_0) (Some (indexed (Some node_as) 1)));
    reflexivity.
Defined.

(** Without the condition on names the path key does not tell positions
    apart: a field named [a.b] has the path key of the field b under a. *)
Example dotted_name_collides :
  buildPath (Some (named None "a.b")) = buildPath (Some (named (Some (named None "a")) "b")).
Proof. reflexivity. Qed.

(** ** [mapToObj] *)

Lemma mapToObj_fold_absent (entries : list (string * string)) acc k :
  k ∉ entries.*1 ->
  foldl (fun obj entry => set_property obj entry.1 entry.2) acc entries !! k = acc !! k.
Proof.
  revert acc. induction entries as [|[k0 v0] entries IH]; intros acc Hk; [done|].
  simpl in *. apply not_elem_of_cons in Hk as [Hne Hk]. rewrite IH by done.
  unfold set_property. case_decide; [done|]. by rewrite lookup_insert_ne.
Qed.

Lemma mapToObj_fold_proto (entries : list (string * string)) acc :
  foldl (fun obj entry => set_property obj entry.1 entry.2) acc entries !! "__proto__"
  = acc !! "__proto__".
Proof.
  revert acc. induction entries as [|[k0 v0] entries IH]; intros acc; [done|].
  simpl. rewrite IH. unfold set_property. case_decide as Heq; [done|].
  by rewrite lookup_insert_ne.
Qed.

Lemma mapToObj_fold_inv (entries : list (string * string)) acc k v :
  foldl (fun obj entry => set_property obj entry.1 entry.2) acc entries !! k = Some v ->
  (k, v) ∈ entries \/ acc !! k = Some v.
Proof.
  revert acc. induction entries as [|[k0 v0] entries IH]; intros acc H; [by right|].
  simpl in H. apply IH in H as [H|H]; [left; by right|].
  unfold set_property in H. case_decide; [by right|].
  destruct (decide (k0 = k)) as [->|Hne].
  - rewrite lookup_insert_eq in H. injection H as ->. left. by left.
  - rewrite lookup_insert_ne in H by done. by right.
Qed.

(** X16: [mapToObj] copies a map into an object: for a map with the given
    entries (each key once), every entry whose key is not [__proto__] is a
    property of the result with the same value, the result has no other
    property, and an entry under the key [__proto__] is lost. *)
Theorem mapToObj_copies_entries (entries : list (string * string)) :
  NoDup entries.*1 ->
  (forall k v, (k, v) ∈ entries -> k <> "__proto__" -> mapToObj entries !! k = Some v) /\
  (forall k v, mapToObj entries !! k = Some v -> (k, v) ∈ entries /\ k <> "__proto__") /\
  mapToObj entries !! "__proto__" = None.
Proof.
  intros Hnd. unfold mapToObj. split; [|split].
  - generalize (∅ : gmap string string) as acc.
    induction entries as [|[k0 v0] entries IH]; intros acc k v Hin Hk.
    { by apply elem_of_nil in Hin. }
    apply NoDup_cons in Hnd as [Hk0 Hnd]. simpl.
    apply elem_of_cons in Hin as [[= <- <-]|Hin]; [|by apply IH].
    rewrite mapToObj_fold_absent by done.
    unfold set_property. rewrite decide_False by done. apply lookup_insert_eq.
  - intros k v H. split.
    + apply mapToObj_fold_inv in H as [H|H]; [done|]. by rewrite lookup_empty in H.
    + intros ->. by rewrite mapToObj_fold_proto, lookup_empty in H.
  - by rewrite mapToObj_fold_proto.
Qed.

Lemma mapToObj_copies_entries_witness :
  mapToObj [("a", "1"); ("__proto__", "x"); ("b", "2")] !! "b" = Some "2" /\
  mapToObj [("a", "1"); ("__proto__", "x"); ("b", "2")] !! "__proto__" = None.
Proof.
  destruct (mapToObj_copies_entries [("a", "1"); ("__proto__", "x"); ("b", "2")])
    as (H1 & _ & H2).
  - repeat (apply NoDup_cons; split; [vm_compute; intros H; repeat (inversion H as [|? ? ? H']; clear H; rename H' into H) |]).
    apply NoDup_nil_2.
  - split; [|exact H2]. apply H1.
    + apply list_elem_of_In. simpl. auto.
    + intros H. inversion H.
Defined.
